(** * GameHUBZ renderer: scan supervisor, catalog merge, image cache, sort

    A shallow embedding of the scan / merge / cache / sort logic of the
    renderer script ([renderer.js]), with the properties of its
    specification stated and proved (or refuted) over the embedding.

    Conventions of the embedding.
    - JavaScript strings are Rocq byte strings; case mapping, trimming and
      the whitespace class are modelled on ASCII (the characters a scanner
      emits for platform tags and the names of the test scenarios).
    - Property values read from parsed JSON are [jsval]s: [undefined]
      (absent property), [null], a string or an integer number.
    - Module-level mutable variables ([allGames], [isScanning],
      [scanTimer], ...) are fields of an explicit state record and every
      function threads the state.
    - Code that throws returns [Throw]; [try]/[catch] is written out.
    - What the host decides is an argument: which file-system calls fail,
      what the remote service answers and how long it takes, which events
      reach the page. Of the DOM only the [disabled] attribute of the
      refresh button is kept, with its effect: a disabled button dispatches
      no click. Of [JSON.parse] only the outcome is kept. *)

From Stdlib Require Import ZArith Ascii String List Lia Bool.
From stdpp Require Import base decidable countable gmap strings list sorting.

Local Open Scope string_scope.
Local Open Scope list_scope.
Local Open Scope Z_scope.

(** ** JavaScript values *)

Module Js.

Inductive jsval :=
| JUndefined
| JNull
| JStr (s : string)
| JNum (n : Z).

#[global] Instance jsval_eq_dec : EqDecision jsval.
Proof. solve_decision. Defined.

Definition jsval_enc (v : jsval) : unit + (unit + (string + Z)) :=
  match v with
  | JUndefined => inl tt
  | JNull => inr (inl tt)
  | JStr s => inr (inr (inl s))
  | JNum n => inr (inr (inr n))
  end.

Definition jsval_dec (x : unit + (unit + (string + Z))) : jsval :=
  match x with
  | inl _ => JUndefined
  | inr (inl _) => JNull
  | inr (inr (inl s)) => JStr s
  | inr (inr (inr n)) => JNum n
  end.

#[global] Instance jsval_countable : Countable jsval.
Proof.
  apply (inj_countable' jsval_enc jsval_dec). intros []; reflexivity.
Defined.

(** [ToBoolean]: the empty string, [0], [undefined] and [null] are falsy. *)
Definition truthy (v : jsval) : bool :=
  match v with
  | JUndefined | JNull => false
  | JStr s => negb (String.eqb s "")
  | JNum n => negb (n =? 0)
  end.

(** Decimal digits of a natural number, most significant first. *)
Fixpoint digits_fuel (fuel : nat) (n : N) (acc : string) : string :=
  match fuel with
  | O => acc
  | S fuel' =>
      let d := Ascii.ascii_of_N (48 + N.modulo n 10) in
      let acc' := String d acc in
      if N.ltb n 10 then acc' else digits_fuel fuel' (N.div n 10) acc'
  end.

Definition string_of_N (n : N) : string :=
  digits_fuel (S (N.to_nat (N.log2 n))) n "".

(** [ToString] on an integer number. *)
Definition string_of_Z (n : Z) : string :=
  match n with
  | Z0 => "0"
  | Zpos p => string_of_N (Npos p)
  | Zneg p => "-" +:+ string_of_N (Npos p)
  end.

(** [ToString], as a template literal [`${v}`] or [String(v)] applies it. *)
Definition to_string (v : jsval) : string :=
  match v with
  | JUndefined => "undefined"
  | JNull => "null"
  | JStr s => s
  | JNum n => string_of_Z n
  end.

(** ASCII case mapping and whitespace. *)
Definition lower_ascii (c : ascii) : ascii :=
  let n := Ascii.nat_of_ascii c in
  if (Nat.leb 65 n && Nat.leb n 90)%bool then Ascii.ascii_of_nat (n + 32) else c.

Fixpoint toLowerCase (s : string) : string :=
  match s with
  | EmptyString => EmptyString
  | String c r => String (lower_ascii c) (toLowerCase r)
  end.

(** The class [\s] restricted to ASCII: TAB, LF, VT, FF, CR, SPACE. *)
Definition is_space (c : ascii) : bool :=
  let n := Ascii.nat_of_ascii c in
  ((Nat.leb 9 n && Nat.leb n 13) || Nat.eqb n 32)%bool.

Fixpoint trimStart (s : string) : string :=
  match s with
  | EmptyString => EmptyString
  | String c r => if is_space c then trimStart r else s
  end.

Definition rev_string (s : string) : string :=
  string_of_list_ascii (List.rev (list_ascii_of_string s)).

Definition trimEnd (s : string) : string := rev_string (trimStart (rev_string s)).

Definition trim (s : string) : string := trimEnd (trimStart s).

End Js.
Export Js.

(** ** Results of code that may throw *)

Inductive result (A : Type) :=
| Ret (a : A)
| Throw (e : string).
Arguments Ret {A} a.
Arguments Throw {A} e.

#[global] Instance result_bind : MBind result := λ A B k r,
  match r with
  | Ret a => k a
  | Throw e => Throw e
  end.

(** [arr.map(f)] for an [f] that may throw: the first exception aborts. *)
Fixpoint mapM {A B} (f : A → result B) (l : list A) : result (list B) :=
  match l with
  | [] => Ret []
  | x :: r => y ← f x ; ys ← mapM f r ; Ret (y :: ys)
  end.

(** [arr.filter(f)] for a predicate that may throw. *)
Fixpoint filterM {A} (f : A → result bool) (l : list A) : result (list A) :=
  match l with
  | [] => Ret []
  | x :: r => b ← f x ; ys ← filterM f r ; Ret (if (b : bool) then x :: ys else ys)
  end.

(** ** [Array.prototype.sort]

    The sort is stable: elements that compare equal keep their order. [x]
    goes before the first element it does not follow. *)
Fixpoint insert_by {A} (cmp : A → A → comparison) (x : A) (l : list A) : list A :=
  match l with
  | [] => [x]
  | y :: r =>
      match cmp x y with
      | Gt => y :: insert_by cmp x r
      | _ => x :: l
      end
  end.

Definition sort_by {A} (cmp : A → A → comparison) (l : list A) : list A :=
  foldr (insert_by cmp) [] l.

(** ** Catalog entries and platform normalisation *)

Module Catalog.

(** One object of [allGames] / of a [games] array: the three properties the
    renderer reads, and the remaining ones ([executable], [execPath], ...)
    which the spread [{...g}] copies unchanged. *)
Record game := Game {
  name : jsval;
  platform : jsval;
  appid : jsval;
  rest : list (string * jsval)
}.

(** The object literal [PLATFORM_ALIASES]. A lookup of a key the literal
    does not define is [undefined]; the inherited members of
    [Object.prototype] ("constructor", "toString", ...) are not platform
    tags and are outside the model. *)
Definition PLATFORM_ALIASES : gmap string string :=
  list_to_map
    [ ("epicgames", "epic"); ("egs", "epic");
      ("goggalaxy", "gog"); ("gog2", "gog");
      ("eaapp", "ea"); ("origin", "ea");
      ("uplay", "ubi"); ("ubisoft", "ubi");
      ("msstore", "mstore"); ("microsoftstore", "mstore"); ("xbox", "mstore");
      ("battlenet", "bnet"); ("blizzard", "bnet");
      ("cig", "starcitizen"); ("sc", "starcitizen");
      ("rstars", "rockstar"); ("rockstargames", "rockstar") ].

(** [function normalizePlatform(p)]:
    [if (!p) return 'all'; const key = String(p).toLowerCase().trim();
     return PLATFORM_ALIASES[key] || key;]
    Every alias is a non-empty string, so [||] keeps it. *)
Definition normalizePlatform (p : jsval) : string :=
  if negb (truthy p) then "all"
  else
    let key := trim (toLowerCase (to_string p)) in
    match PLATFORM_ALIASES !! key with
    | Some a => a
    | None => key
    end.

(** [g => ({ ...g, platform: normalizePlatform(g.platform) })] *)
Definition normalizeGame (g : game) : game :=
  {| name := name g;
     platform := JStr (normalizePlatform (platform g));
     appid := appid g;
     rest := rest g |}.

(** [`${g.name.toLowerCase()}_${g.platform}`]: calling [toLowerCase] on a
    name that is not a string is a [TypeError]. *)
Definition nameKey (g : game) : result string :=
  match name g with
  | JStr s => Ret (toLowerCase s +:+ "_" +:+ to_string (platform g))
  | _ => Throw "TypeError"
  end.

End Catalog.
Export Catalog.

(** ** CatalogMerger: [appendNewGames] *)

Module Merge.

(** [new Set(allGames.map(g => g.appid))] *)
Definition existingAppIds (allGames : list game) : gset jsval :=
  list_to_set (map appid allGames).

(** [new Set(allGames.map(g => `${g.name.toLowerCase()}_${g.platform}`))] *)
Definition existingNames (allGames : list game) : result (gset string) :=
  ks ← mapM nameKey allGames ; Ret (list_to_set ks).

(** The callback of [normalizedGames.filter]. Both sets are the ones built
    from [allGames] before the filter starts. *)
Definition isUnique (ids : gset jsval) (names : gset string) (g : game)
  : result bool :=
  nk ← nameKey g ;
  let isDuplicateById := truthy (appid g) && bool_decide (appid g ∈ ids) in
  let isDuplicateByName := bool_decide (nk ∈ names) in
  Ret (negb isDuplicateById && negb isDuplicateByName).

(** The array [uniqueGames] that [appendNewGames] computes from
    [allGames] and the batch: normalise, build the two sets, filter. *)
Definition uniqueGamesOf (allGames newGames : list game) : result (list game) :=
  let normalizedGames := map normalizeGame newGames in
  let ids := existingAppIds allGames in
  names ← existingNames allGames;
  filterM (isUnique ids names) normalizedGames.

(** [arr.length === 0] *)
Definition is_empty {A} (l : list A) : bool := Nat.eqb (length l) 0.

(** [async function appendNewGames(newGames)], as a function of whether
    [#game-container] exists, of [allGames] and of the batch. It returns the
    new [allGames] and either the entries pushed ([uniqueGames]) or the
    exception that rejected the promise. Every throwing expression precedes
    [allGames.push], so a rejection leaves [allGames] as it was. *)
Definition appendNewGames (container : bool) (allGames newGames : list game)
  : list game * result (list game) :=
  if is_empty newGames then (allGames, Ret [])
  else if negb container then (allGames, Ret [])
  else
    match uniqueGamesOf allGames newGames with
    | Throw e => (allGames, Throw e)
    | Ret uniqueGames =>
        if is_empty uniqueGames then (allGames, Ret [])
        else (allGames ++ uniqueGames, Ret uniqueGames)
    end.

(** The entries a call appended. *)
Definition accepted (r : result (list game)) : list game :=
  match r with
  | Ret l => l
  | Throw _ => []
  end.

(** [merge] on the happy path: the collection after the call. *)
Definition merge (allGames batch : list game) : list game :=
  fst (appendNewGames true allGames batch).

(** Two entries are the same application for the merge engine: equal
    truthy [appid], or equal name key. *)
Definition sameApp (g h : game) : bool :=
  (truthy (appid g) && bool_decide (appid g = appid h))
  || match nameKey g, nameKey h with
     | Ret a, Ret b => bool_decide (a = b)
     | _, _ => false
     end.

End Merge.

(** ** ImageCache: the cache directory *)

Module Cache.

(** What [fs.statSync] reports of a cache file: [size] in bytes and [mtime]
    in milliseconds. *)
Record fstat := Fstat {
  size : Z;
  mtime : Z
}.

(** The cache directory [CACHE_DIR]: file name to stats. File names are the
    keys; [path.join(CACHE_DIR, fileName)] is the file of that key. *)
Abbreviation dir := (gmap string fstat).

(** What the file system and the clock do during one call: the files whose
    [unlinkSync], [statSync] or [utimesSync] throws (permission, sharing
    violation), and the value of [new Date()]. *)
Record fsenv := Fsenv {
  locked : gset string;
  unreadable : gset string;
  untouchable : gset string;
  now : Z
}.

(** A state-and-exception monad over the directory: a throwing step keeps
    the directory it reached. *)
Definition io (A : Type) : Type := dir → result A * dir.

#[global] Instance io_ret : MRet io := λ A a d, (Ret a, d).
#[global] Instance io_bind : MBind io := λ A B k m d,
  match m d with
  | (Ret a, d') => k a d'
  | (Throw e, d') => (Throw e, d')
  end.

(** [try { m } catch (e) { h e }] *)
Definition try_catch {A} (m : io A) (h : string → io A) : io A := λ d,
  match m d with
  | (Ret a, d') => (Ret a, d')
  | (Throw e, d') => h e d'
  end.

Definition existsSync (f : string) : io bool := λ d,
  (Ret (bool_decide (is_Some (d !! f))), d).

Definition statSync (env : fsenv) (f : string) : io fstat := λ d,
  match d !! f with
  | Some st => if bool_decide (f ∈ unreadable env) then (Throw "EPERM", d)
               else (Ret st, d)
  | None => (Throw "ENOENT", d)
  end.

Definition unlinkSync (env : fsenv) (f : string) : io unit := λ d,
  match d !! f with
  | Some _ => if bool_decide (f ∈ locked env) then (Throw "EPERM", d)
              else (Ret tt, delete f d)
  | None => (Throw "ENOENT", d)
  end.

(** [fs.utimesSync(f, new Date(), new Date())] *)
Definition utimesSync (env : fsenv) (f : string) : io unit := λ d,
  match d !! f with
  | Some st => if bool_decide (f ∈ untouchable env) then (Throw "EPERM", d)
               else (Ret tt, <[f := Fstat (size st) (now env)]> d)
  | None => (Throw "ENOENT", d)
  end.

(** [fs.readdirSync(CACHE_DIR)] *)
Definition readdirSync (d : dir) : list string := (map_to_list d).*1.

(** *** [cleanupCache] *)

Definition MAX_CACHE_SIZE_MB : Z := 500.
Definition MAX_FILES : nat := 1000.
Definition MB : Z := 1024 * 1024.

(** [sizeMB > MAX_CACHE_SIZE_MB] with [sizeMB = totalSize / (1024 * 1024)]:
    dividing by a power of two is exact on doubles, so the test is the
    integer test. *)
Definition over_budget (totalSize : Z) : bool :=
  MAX_CACHE_SIZE_MB * MB <? totalSize.

(** [currentSize / (1024 * 1024) <= MAX_CACHE_SIZE_MB * 0.8]: the double
    [500 * 0.8] is exactly [400]. *)
Definition under_target (currentSize : Z) : bool :=
  currentSize <=? 400 * MB.

(** [(a, b) => a.mtime - b.mtime], by its sign, and the order the sort
    realises with it. *)
Definition mtime_cmp (a b : string * fstat) : comparison :=
  Z.compare (mtime a.2) (mtime b.2).

Definition by_mtime (a b : string * fstat) : Prop := mtime a.2 ≤ mtime b.2.

(** [files.map(file => { ...statSync... })]: there is no [try] inside the
    callback, so a file that is gone throws out of the [map]. *)
Definition statAll (env : fsenv) (files : list string) : io (list (string * fstat)) :=
  foldr (λ f acc, st ← statSync env f; rest ← acc; mret ((f, st) :: rest))
        (mret []) files.

(** [try { fs.unlinkSync(filePath) } catch (e) { console.warn(...) }] *)
Definition unlink_logged (env : fsenv) (f : string) : io unit :=
  try_catch (unlinkSync env f) (λ _, mret tt).

(** [toDelete.forEach(...)] *)
Definition unlinkEach (env : fsenv) (toDelete : list (string * fstat)) : io unit :=
  foldr (λ p acc, _ ← unlink_logged env p.1; acc) (mret tt) toDelete.

(** The first block of [cleanupCache]: [if (files.length > MAX_FILES)]. *)
Definition countPass (env : fsenv) (files : list string) : io unit :=
  if Nat.ltb MAX_FILES (length files) then
    fileStats ← statAll env files;
    let sorted := sort_by mtime_cmp fileStats in
    let toDelete := take 200 sorted in
    unlinkEach env toDelete
  else mret tt.

(** [files.forEach(file => { try { totalSize += statSync(...).size } catch {} })] *)
Definition totalSizeOf (env : fsenv) (files : list string) (d : dir) : Z :=
  foldl (λ acc f, match statSync env f d with
                  | (Ret st, _) => acc + size st
                  | (Throw _, _) => acc
                  end) 0 files.

(** The [for ... of fileStats] loop of the second block, with
    [currentSize] as an argument. *)
Fixpoint evictLoop (env : fsenv) (fileStats : list (string * fstat))
    (currentSize : Z) : io unit :=
  match fileStats with
  | [] => mret tt
  | (f, st) :: rest =>
      if under_target currentSize then mret tt
      else λ d,
        match unlinkSync env f d with
        | (Ret _, d') => evictLoop env rest (currentSize - size st) d'
        | (Throw _, d') => evictLoop env rest currentSize d'
        end
  end.

(** The second block: [if (sizeMB > MAX_CACHE_SIZE_MB)]. *)
Definition bytePass (env : fsenv) (files : list string) : io unit := λ d,
  let totalSize := totalSizeOf env files d in
  if over_budget totalSize then
    (fileStats ← statAll env files;
     evictLoop env (sort_by mtime_cmp fileStats) totalSize) d
  else (Ret tt, d).

(** [function cleanupCache()]: one directory listing serves both blocks,
    and the outer [try]/[catch] swallows whatever is thrown. *)
Definition cleanupCache (env : fsenv) (d : dir) : dir :=
  let files := readdirSync d in
  snd (try_catch (_ ← countPass env files; bytePass env files)
                 (λ _, mret tt) d).

(** [files.length] *)
Definition fileCount (d : dir) : nat := length (readdirSync d).

(** Total bytes of a list of files, and of the directory. *)
Definition sumSizes (l : list (string * fstat)) : Z :=
  foldr (λ p acc, size p.2 + acc) 0 l.

Definition dirBytes (d : dir) : Z := sumSizes (map_to_list d).

(** The files of the directory can all be read and deleted. *)
Definition cooperative (env : fsenv) (d : dir) : Prop :=
  ∀ f, is_Some (d !! f) → (f ∉ locked env) ∧ (f ∉ unreadable env).

(** Every file of [l] is in [d] with the stats [l] gives and can be read. *)
Definition listed (env : fsenv) (l : list (string * fstat)) (d : dir) : Prop :=
  ∀ f st, (f, st) ∈ l → d !! f = Some st ∧ (f ∉ unreadable env).

(** A call only ever removes files. *)
Definition shrinks {A} (m : io A) : Prop := ∀ d, snd (m d) ⊆ d.

(** *** [fetchGameImage] *)

(** What [fetchGameImage] resolves to: the [file:] URL of a cache file
    ([pathToFileURL(localPath).href]) or the placeholder asset
    ([getAssetPath('img/placeholder.png')]). *)
Inductive image_src :=
| CacheFile (fileName : string)
| Placeholder.

(** What one pass of the [for] loop of [fetchImageWithRetry] meets at the
    remote service. A rejected [fetch], a body that is not JSON, a
    [success] without [data] and a failed download all throw into the
    [catch]; an unsuccessful or empty answer falls to [break]. *)
Inductive remote :=
| SearchThrows
| SearchEmpty
| GridsThrows
| GridsEmpty
| DownloadFails
| DownloadOk (bytes : Z).

(** One pass: what happens and how many milliseconds it takes. *)
Record attempt := Attempt {
  outcome : remote;
  duration : Z
}.

(** Where [fetchImageWithRetry] stands when its promise settles: the value
    or exception, the milliseconds elapsed, and the file a completed
    download wrote. *)
Record fetched := Fetched {
  settled : result image_src;
  elapsed : Z;
  written : option Z
}.

(** The loop [for (let attempt = 0; attempt <= maxRetries; attempt++)],
    by recursion on the passes left ([maxRetries - attempt + 1]). *)
Fixpoint retryLoop (net : nat → attempt) (fileName : string)
    (left attempt : nat) (t : Z) : fetched :=
  match left with
  | O => Fetched (Ret Placeholder) t None
  | S left' =>
      let a := net attempt in
      let t' := t + duration a in
      match outcome a with
      | DownloadOk bytes => Fetched (Ret (CacheFile fileName)) t' (Some bytes)
      | SearchEmpty | GridsEmpty => Fetched (Ret Placeholder) t' None
      | SearchThrows | GridsThrows | DownloadFails =>
          match left' with
          | O => Fetched (Throw "fetch failed") t' None
          | S _ => retryLoop net fileName left' (S attempt) (t' + 1000)
          end
      end
  end.

(** [async function fetchImageWithRetry(game, localPath, maxRetries = 2)] *)
Definition fetchImageWithRetry (net : nat → attempt) (fileName : string)
    (maxRetries : nat) : fetched :=
  retryLoop net fileName (S maxRetries) 0 0.

(** [await Promise.race([fetchImageWithRetry(...), timer(timeout)])]: the
    retry promise wins when it settles before the timer; a download that
    completed wrote its file. A tie goes to the timer. *)
Definition race (env : fsenv) (fileName : string) (f : fetched) (timeout : Z)
  : io image_src := λ d,
  if elapsed f <? timeout then
    (settled f,
     match written f with
     | Some bytes => <[fileName := Fstat bytes (now env)]> d
     | None => d
     end)
  else (Throw "Timeout", d).

(** [`${game.platform}_${game.appid}.jpg`] *)
Definition fileName (g : game) : string :=
  to_string (platform g) +:+ "_" +:+ to_string (appid g) +:+ ".jpg".

(** The block [if (fs.existsSync(localPath)) { try {...} catch {...} }]:
    [Some] is the early [return] of a cache hit, [None] falls through. *)
Definition cacheCheck (env : fsenv) (f : string) : io (option image_src) :=
  ex ← existsSync f;
  if (ex : bool) then
    try_catch
      (stats ← statSync env f;
       if 1024 <? size stats then
         _ ← utimesSync env f; mret (Some (CacheFile f))
       else
         _ ← unlinkSync env f; mret None)
      (λ _, _ ← try_catch (unlinkSync env f) (λ _, mret tt); mret None)
  else mret None.

(** The final [try { return await Promise.race(...) } catch { return
    placeholder }]. *)
Definition fetchRemote (env : fsenv) (net : nat → attempt) (f : string)
    (timeout : Z) : io image_src :=
  try_catch (race env f (fetchImageWithRetry net f 2) timeout)
            (λ _, mret Placeholder).

(** [async function fetchGameImage(game, timeout = 3000)] *)
Definition fetchGameImage (env : fsenv) (net : nat → attempt) (g : game)
    (timeout : Z) : io image_src :=
  let f := fileName g in
  hit ← cacheCheck env f;
  match hit with
  | Some src => mret src
  | None => fetchRemote env net f timeout
  end.

(** The words of the properties of [fetchGameImage]. *)

(** A pass of the retry loop ended in its [catch]. *)
Definition threw (r : remote) : bool :=
  match r with
  | SearchThrows | GridsThrows | DownloadFails => true
  | SearchEmpty | GridsEmpty | DownloadOk _ => false
  end.



End Cache.

(** ** RenderScheduler: the comparator and the view of [sortAndRender] *)

Module Sort.

(** The alternatives of [/^(the|a|an|le|la|les|l'|un|une|des)\s+/i], in
    the order the regular expression tries them. *)
Definition articles : list string :=
  ["the"; "a"; "an"; "le"; "la"; "les"; "l'"; "un"; "une"; "des"].

(** [s] without the prefix [p], compared case-insensitively (flag [i]). *)
Fixpoint strip_prefix_ci (p s : string) : option string :=
  match p, s with
  | EmptyString, _ => Some s
  | String a p', String b s' =>
      if Ascii.eqb (lower_ascii a) (lower_ascii b) then strip_prefix_ci p' s'
      else None
  | String _ _, EmptyString => None
  end.

(** One alternative followed by [\s+] at the start of [s]: what is left of
    [s] after the match ([\s+] is greedy and nothing follows it). *)
Definition match_article (a s : string) : option string :=
  match strip_prefix_ci a s with
  | Some (String c r) => if is_space c then Some (trimStart r) else None
  | _ => None
  end.

(** [name.replace(articles, '')]: the first alternative that matches wins. *)
Fixpoint stripArticle (alts : list string) (s : string) : string :=
  match alts with
  | [] => s
  | a :: alts' =>
      match match_article a s with
      | Some r => r
      | None => stripArticle alts' s
      end
  end.

(** [sortName.replace(/[™®©]/g, '')] on UTF-8 bytes: U+2122 is E2 84 A2,
    U+00AE is C2 AE, U+00A9 is C2 A9. *)
Fixpoint stripSymbols (s : string) : string :=
  match s with
  | String "226" (String "132" (String "162" r)) => stripSymbols r
  | String "194" (String "174" r) => stripSymbols r
  | String "194" (String "169" r) => stripSymbols r
  | String c r => String c (stripSymbols r)
  | EmptyString => EmptyString
  end.

(** [sortName.replace(/\s+/g, ' ')]: [in_run] says the previous character
    was white space (and a space was already written for its run). *)
Fixpoint collapseSpaces (in_run : bool) (s : string) : string :=
  match s with
  | EmptyString => EmptyString
  | String c r =>
      if is_space c then
        if in_run then collapseSpaces true r
        else String " " (collapseSpaces true r)
      else String c (collapseSpaces false r)
  end.

(** [function getSortName(name)] *)
Definition getSortName (name : string) : string :=
  let sortName := stripArticle articles name in
  let sortName := stripSymbols sortName in
  trim (collapseSpaces false sortName).

(** *** [localeCompare(other, 'fr', { sensitivity: 'base', numeric: true })]

    The collation of the host, on ASCII text: white space sorts before
    punctuation, punctuation before digits, digits before letters; letters
    compare without case ([sensitivity: 'base']) and a run of digits
    compares as the number it spells ([numeric: true]). *)
Inductive ckey :=
| KSpace (c : N)
| KPunct (c : N)
| KNumber (n : N)
| KLetter (c : N).

Definition is_digit (c : ascii) : bool :=
  let n := Ascii.N_of_ascii c in (N.leb 48 n && N.leb n 57)%bool.

Definition is_letter (c : ascii) : bool :=
  let n := Ascii.N_of_ascii (lower_ascii c) in
  ((N.leb 97 n && N.leb n 122) || N.leb 128 n)%bool.

(** The collation keys of a string; [num] holds the digits read so far of
    the current run. *)
Fixpoint ckeys (num : option N) (s : string) : list ckey :=
  match s with
  | EmptyString => match num with Some n => [KNumber n] | None => [] end
  | String c r =>
      if is_digit c then
        let d := (Ascii.N_of_ascii c - 48)%N in
        ckeys (Some (match num with Some n => 10 * n + d | None => d end)%N) r
      else
        let flush := match num with Some n => [KNumber n] | None => [] end in
        let k := if is_space c then KSpace (Ascii.N_of_ascii c)
                 else if is_letter c then KLetter (Ascii.N_of_ascii (lower_ascii c))
                 else KPunct (Ascii.N_of_ascii c) in
        flush ++ k :: ckeys None r
  end.

Definition ckey_class (k : ckey) : N :=
  match k with
  | KSpace _ => 0 | KPunct _ => 1 | KNumber _ => 2 | KLetter _ => 3
  end%N.

Definition ckey_val (k : ckey) : N :=
  match k with
  | KSpace c | KPunct c | KNumber c | KLetter c => c
  end.

Definition ckey_compare (a b : ckey) : comparison :=
  match N.compare (ckey_class a) (ckey_class b) with
  | Eq => N.compare (ckey_val a) (ckey_val b)
  | c => c
  end.

Fixpoint ckeys_compare (a b : list ckey) : comparison :=
  match a, b with
  | [], [] => Eq
  | [], _ :: _ => Lt
  | _ :: _, [] => Gt
  | x :: a', y :: b' =>
      match ckey_compare x y with
      | Eq => ckeys_compare a' b'
      | c => c
      end
  end.

Definition localeCompare (a b : string) : comparison :=
  ckeys_compare (ckeys None a) (ckeys None b).

(** [haystack.includes(needle)] *)
Fixpoint includes (haystack needle : string) : bool :=
  String.prefix needle haystack ||
  match haystack with
  | EmptyString => false
  | String _ r => includes r needle
  end.

(** What [sortAndRender] reads besides [allGames]: the active filter, the
    favourites of [localStorage], the lowercased search box and the value
    of the sort selector. *)
Record view := View {
  activeFilter : string;
  favorites : list jsval;
  searchVal : string;
  sortVal : string
}.

Definition default_view : view := View "all" [] "" "AZ".

(** The callback of [allGames.filter] in [sortAndRender]. *)
Definition isVisible (v : view) (g : game) : result bool :=
  let byPlat :=
    if String.eqb (activeFilter v) "all" then true
    else if String.eqb (activeFilter v) "favorites"
         then bool_decide (appid g ∈ favorites v)
         else bool_decide (platform g = JStr (activeFilter v)) in
  match name g with
  | JStr n => Ret (byPlat && includes (toLowerCase n) (searchVal v))
  | _ => if byPlat then Throw "TypeError" else Ret false
  end.

(** The name a comparator call reads; the filter has already thrown on a
    name that is not a string. *)
Definition name_string (g : game) : string :=
  match name g with
  | JStr n => n
  | _ => ""
  end.

(** The comparator of [filtered.sort]. *)
Definition compareGames (v : view) (a b : game) : comparison :=
  let aSortName := getSortName (name_string a) in
  let bSortName := getSortName (name_string b) in
  if String.prefix "Z" (sortVal v)
  then localeCompare bSortName aSortName
  else localeCompare aSortName bSortName.

(** The array [filtered] that the timer callback of [sortAndRender] hands
    to the renderer. *)
Definition sortedView (v : view) (allGames : list game) : result (list game) :=
  filtered ← filterM (isVisible v) allGames;
  Ret (sort_by (compareGames v) filtered).

End Sort.

(** ** ScanSupervisor: the refresh handler and the process handlers *)

Module Scan.
Import Merge.

(** What a pending timer runs when it fires. *)
Inductive timer_action :=
| ScanTimeout (pid : nat)
    (** armed by [setupProcessHandlers]: kill that process, toast, [endScan] *)
| EndScanReset
    (** armed by [endScan]: [setScanningUI(false)] *)
| RenderPass (useProgressBar : bool).
    (** armed by [sortAndRender]: filter, sort, render *)

Record timer := Timer {
  action : timer_action;
  delay : Z
}.

(** The [onErrorCallback] closure handed to [setupProcessHandlers]. *)
Inductive on_error :=
| ExeFailed
    (** [() => { tryPythonFallback(); }] *)
| PythonFailed (closure : nat).
    (** [() => { commandIndex++; tryNextPythonCommand(); }] of one call of
        [tryPythonFallback] *)

(** A child process with the handlers [setupProcessHandlers] gave it. *)
Record proc := Proc {
  command : string;
  onErrorCallback : on_error;
  outputBuffer : string
}.

(** Calls that leave the script, in the order they are made. *)
Inductive effect :=
| ShowToast (msg : string)
| UpdateProgress (percentage platformLabel games_found : jsval)
| SpawnProcess (pid : nat) (cmd : string)
| KillProcess (pid : nat)
| ParseError (line : string)
| FetchGameImage (g : game).

(** The module-level variables of the script, the timers of the window,
    the child processes and the trace of outward calls. *)
Record state := State {
  allGames : list game;
  isScanning : bool;
  refresh_disabled : bool;          (** [#refresh-button].disabled *)
  scanTimer : option nat;
  sortAndRenderTimer : option nat;
  timers : gmap nat timer;          (** pending timers by handle *)
  next_timer : nat;
  procs : gmap nat proc;
  next_pid : nat;
  commandIndex : gmap nat nat;      (** one counter per [tryPythonFallback] call *)
  next_closure : nat;
  current_view : Sort.view;
  trace : list effect
}.

Definition with_allGames v s :=
  State v (isScanning s) (refresh_disabled s) (scanTimer s) (sortAndRenderTimer s)
    (timers s) (next_timer s) (procs s) (next_pid s) (commandIndex s)
    (next_closure s) (current_view s) (trace s).
Definition with_scanning v s :=
  State (allGames s) v v (scanTimer s) (sortAndRenderTimer s)
    (timers s) (next_timer s) (procs s) (next_pid s) (commandIndex s)
    (next_closure s) (current_view s) (trace s).
Definition with_scanTimer v s :=
  State (allGames s) (isScanning s) (refresh_disabled s) v (sortAndRenderTimer s)
    (timers s) (next_timer s) (procs s) (next_pid s) (commandIndex s)
    (next_closure s) (current_view s) (trace s).
Definition with_sortAndRenderTimer v s :=
  State (allGames s) (isScanning s) (refresh_disabled s) (scanTimer s) v
    (timers s) (next_timer s) (procs s) (next_pid s) (commandIndex s)
    (next_closure s) (current_view s) (trace s).
Definition with_timers v n s :=
  State (allGames s) (isScanning s) (refresh_disabled s) (scanTimer s)
    (sortAndRenderTimer s) v n (procs s) (next_pid s) (commandIndex s)
    (next_closure s) (current_view s) (trace s).
Definition with_procs v n s :=
  State (allGames s) (isScanning s) (refresh_disabled s) (scanTimer s)
    (sortAndRenderTimer s) (timers s) (next_timer s) v n (commandIndex s)
    (next_closure s) (current_view s) (trace s).
Definition with_commandIndex v n s :=
  State (allGames s) (isScanning s) (refresh_disabled s) (scanTimer s)
    (sortAndRenderTimer s) (timers s) (next_timer s) (procs s) (next_pid s) v
    n (current_view s) (trace s).
Definition emit (e : effect) s :=
  State (allGames s) (isScanning s) (refresh_disabled s) (scanTimer s)
    (sortAndRenderTimer s) (timers s) (next_timer s) (procs s) (next_pid s)
    (commandIndex s) (next_closure s) (current_view s) (trace s ++ [e]).

(** The page before any scan: [allGames] as [loadGames] read it, nothing
    pending. Timer handles are positive, so a handle is truthy. *)
Definition init (games : list game) (v : Sort.view) : state :=
  State games false false None None ∅ 1 ∅ 1 ∅ 0 v [].

(** [setTimeout(callback, ms)] returns the new handle. *)
Definition setTimeout (a : timer_action) (ms : Z) (s : state) : nat * state :=
  let h := next_timer s in
  (h, with_timers (<[h := Timer a ms]> (timers s)) (S h) s).

Definition clearTimeout (h : nat) (s : state) : state :=
  with_timers (delete h (timers s)) (next_timer s) s.

(** [function setScanningUI(on)]: the flag and the [disabled] attribute of
    the refresh button change together. *)
Definition setScanningUI (on : bool) (s : state) : state := with_scanning on s.

(** [function endScan()] *)
Definition endScan (s : state) : state :=
  let s1 := match scanTimer s with
            | Some h => with_scanTimer None (clearTimeout h s)
            | None => s
            end in
  snd (setTimeout EndScanReset 1000 s1).

(** [function sortAndRender(useProgressBar)]: the debounce. *)
Definition sortAndRender (useProgressBar : bool) (s : state) : state :=
  let s1 := match sortAndRenderTimer s with
            | Some h => clearTimeout h s
            | None => s
            end in
  let '(h, s2) := setTimeout (RenderPass useProgressBar) 150 s1 in
  with_sortAndRenderTimer (Some h) s2.

(** The timer callback of [sortAndRender]: [renderGames] and
    [renderGamesWithProgress] both call [fetchGameImage] once for each
    entry of [filtered], in order. *)
Definition renderPass (s : state) : state :=
  let s1 := match Sort.sortedView (current_view s) (allGames s) with
            | Ret filtered => foldl (λ s g, emit (FetchGameImage g) s) s filtered
            | Throw _ => s
            end in
  with_sortAndRenderTimer None s1.

(** The last statement of [setupProcessHandlers]:
    [scanTimer = setTimeout(() => { scanProcess.kill(); ... }, 180000)].
    Nothing clears the timer [scanTimer] held before. *)
Definition armScanTimer (pid : nat) (s : state) : state :=
  let '(h, s1) := setTimeout (ScanTimeout pid) 180000 s in
  with_scanTimer (Some h) s1.

(** [startScanProcess] followed by [setupProcessHandlers]. *)
Definition startScanProcess (cmd : string) (cb : on_error) (s : state) : state :=
  let pid := next_pid s in
  let s1 := with_procs (<[pid := Proc cmd cb ""]> (procs s)) (S pid) s in
  armScanTimer pid (emit (SpawnProcess pid cmd) s1).

Definition pythonCommands : list string := ["python"; "py"; "python3"].

(** [function tryNextPythonCommand()] of the closure [c]. *)
Definition tryNextPythonCommand (c : nat) (s : state) : state :=
  match commandIndex s !! c with
  | None => s
  | Some i =>
      match pythonCommands !! i with
      | None => endScan (emit (ShowToast "Erreur: Python non trouvé") s)
      | Some pythonCmd => startScanProcess pythonCmd (PythonFailed c) s
      end
  end.

(** What the host provides: whether the scanner executable and the Python
    script exist, and whether the page has [#game-container]. *)
Record host := Host {
  exe_exists : bool;
  script_exists : bool;
  container : bool
}.

(** [function tryPythonFallback()] *)
Definition tryPythonFallback (env : host) (s : state) : state :=
  if negb (script_exists env) then
    endScan (emit (ShowToast "Erreur: ni .exe ni .py trouvés") s)
  else
    let c := next_closure s in
    tryNextPythonCommand c
      (with_commandIndex (<[c := 0%nat]> (commandIndex s)) (S c) s).

(** Running an [onErrorCallback]. *)
Definition runOnError (env : host) (cb : on_error) (s : state) : state :=
  match cb with
  | ExeFailed => tryPythonFallback env s
  | PythonFailed c =>
      let i := default 0%nat (commandIndex s !! c) in
      tryNextPythonCommand c
        (with_commandIndex (<[c := S i]> (commandIndex s)) (next_closure s) s)
  end.

(** The [onclick] handler of [#refresh-button]. *)
Definition refreshClick (env : host) (s : state) : state :=
  let s1 := with_allGames [] s in
  let s2 := setScanningUI true s1 in
  if exe_exists env then startScanProcess "unified_scanner.exe" ExeFailed s2
  else tryPythonFallback env s2.

(** The object a [PROGRESS:] line carries; [games] is empty when the
    property is absent. *)
Record progressData := ProgressData {
  percentage : jsval;
  platformLabel : jsval;
  games_found : jsval;
  games : list game
}.

(** [text.split('\n')] *)
Fixpoint split_lines (s : string) : list string :=
  match s with
  | EmptyString => [EmptyString]
  | String c r =>
      let l := split_lines r in
      if Ascii.eqb c "010" then EmptyString :: l
      else match l with
           | h :: t => String c h :: t
           | [] => [String c EmptyString]
           end
  end.

(** [line.substring(9)] *)
Fixpoint substring_from (n : nat) (s : string) : string :=
  match n, s with
  | O, _ => s
  | S n', String _ r => substring_from n' r
  | S _, EmptyString => EmptyString
  end.

Section handlers.
  (** [JSON.parse] followed by the property reads of the handler: [Throw]
      when the payload is not JSON for an object. *)
Variable JSON_parse : string → result progressData.
Variable env : host.

  (** The body of [for (const line of lines)] in the [stdout] handler.
      [appendNewGames] is an [async] function called without [await]: what
      it throws rejects its promise and does not reach the [catch] here. *)
Definition processLine (s : state) (line : string) : state :=
    if String.prefix "PROGRESS:" line then
      match JSON_parse (substring_from 9 line) with
      | Ret pd =>
          let s1 := emit (UpdateProgress (percentage pd) (platformLabel pd)
                            (games_found pd)) s in
          if is_empty (games pd) then s1
          else with_allGames
                 (fst (appendNewGames (container env) (allGames s1) (games pd))) s1
      | Throw _ => emit (ParseError line) s
      end
    else s.

  (** [scanProcess.stdout.on('data', ...)] *)
Definition onStdout (pid : nat) (text : string) (s : state) : state :=
    match procs s !! pid with
    | None => s
    | Some p =>
        let lines := split_lines (outputBuffer p +:+ text) in
        let rest := default "" (last lines) in
        let complete := removelast lines in
        let s1 := with_procs
                    (<[pid := Proc (command p) (onErrorCallback p) rest]> (procs s))
                    (next_pid s) s in
        foldl processLine s1 complete
    end.

  (** [scanProcess.on('close', code => ...)]; [None] is the [null] code of
      a process ended by a signal. *)
Definition onClose (pid : nat) (code : option Z) (s : state) : state :=
    match procs s !! pid with
    | None => s
    | Some p =>
        if bool_decide (code = Some 0) then
          let s1 := sortAndRender false s in
          let n := string_of_N (N.of_nat (length (allGames s1))) in
          endScan (emit (ShowToast ("Scan terminé avec succès - " +:+ n
                                      +:+ " jeux trouvés")) s1)
        else runOnError env (onErrorCallback p) s
    end.

  (** [scanProcess.on('error', err => ...)] *)
Definition onError (pid : nat) (s : state) : state :=
    match procs s !! pid with
    | None => s
    | Some p => runOnError env (onErrorCallback p) s
    end.

  (** A pending timer fires: its callback runs once. *)
Definition onTimer (h : nat) (s : state) : state :=
    match timers s !! h with
    | None => s
    | Some t =>
        let s1 := with_timers (delete h (timers s)) (next_timer s) s in
        match action t with
        | ScanTimeout pid =>
            endScan (emit (ShowToast "Analyse interrompue (timeout)")
                       (emit (KillProcess pid) s1))
        | EndScanReset => setScanningUI false s1
        | RenderPass _ => renderPass s1
        end
    end.

  (** What happens to the page. *)
Inductive event :=
  | Click
  | StdoutData (pid : nat) (text : string)
  | Close (pid : nat) (code : option Z)
  | ProcError (pid : nat)
  | TimerFires (h : nat).

  (** One event. [setScanningUI] sets [#refresh-button].disabled, and a
      click on a disabled button is not dispatched: the [onclick] handler,
      which has no test of its own, runs only when the button is enabled. *)
Definition step (s : state) (ev : event) : state :=
    match ev with
    | Click => if refresh_disabled s then s else refreshClick env s
    | StdoutData pid text => onStdout pid text s
    | Close pid code => onClose pid code s
    | ProcError pid => onError pid s
    | TimerFires h => onTimer h s
    end.

Definition run (s : state) (evs : list event) : state := foldl step s evs.


End handlers.

(** The scan timers that are pending, as (handle, process). *)
Definition pendingScanTimers (s : state) : list (nat * nat) :=
  omap (λ '(h, t), match action t with
                   | ScanTimeout pid => Some (h, pid)
                   | _ => None
                   end) (map_to_list (timers s)).

(** The entries whose image has been requested so far. *)
Definition requested (s : state) : list game :=
  omap (λ e, match e with FetchGameImage g => Some g | _ => None end) (trace s).


(** The warm-up as the specification words it: every entry that a
    progress unit gets accepted has its image requested while the line is
    handled. *)
Definition warmup_requested : Prop :=
  ∀ JSON_parse env s line pd,
    String.prefix "PROGRESS:" line = true →
    JSON_parse (substring_from 9 line) = Ret pd →
    games pd ≠ [] →
    ∀ g, g ∈ accepted (snd (appendNewGames (container env) (allGames s) (games pd))) →
         FetchGameImage g ∈ trace (processLine JSON_parse env s line).

End Scan.

(** ** Concrete entries, hosts and directories *)

Module Scenario.
Import Cache Scan.

(** The entries of the specification's merge scenario. *)
Definition foo : game := Game (JStr "Foo") (JStr "steam") (JStr "1") [].
Definition bar : game := Game (JStr "Bar") (JStr "epic") JUndefined [].

(** Two executables nobody gave an [appid]. *)
Definition notepad : game := Game (JStr "Notepad") (JStr "all") JUndefined [].
Definition paint : game := Game (JStr "Paint") (JStr "all") JUndefined [].


(** A host with both the executable and the script, and a parser that
    reads every payload as one fixed progress object. *)
Definition both : host := Host true true true.
Definition unit_foo : progressData :=
  ProgressData (JNum 10) (JStr "Steam") (JNum 1) [foo].
Definition parse_foo : string → result progressData := λ _, Ret unit_foo.

(** A file system on which nothing fails; a remote service that knows no
    game; directories: [n] files of one byte each, file [i] last modified
    at time [i]; two covers of 300 MB; a cover of 10 bytes and one of
    4096 bytes for "Foo"; a cover of 4096 bytes for the entries without
    [appid]. *)
Definition quiet : fsenv := Fsenv ∅ ∅ ∅ 0.

Definition unknown_game : nat → attempt := λ _, Attempt SearchEmpty 20.

Definition crowded (n : nat) : dir :=
  list_to_map
    (map (λ i, (string_of_N (N.of_nat i) +:+ ".jpg", Fstat 1 (Z.of_nat i)))
         (seq 0 n)).

Definition heavy : dir :=
  list_to_map [("steam_1.jpg", Fstat (300 * MB) 1);
               ("steam_2.jpg", Fstat (300 * MB) 2)].

Definition shared_cover : dir := {[ "all_undefined.jpg" := Fstat 4096 5 ]}.

End Scenario.

(** ** The catalog without duplicates *)

Module Dedup.
Import Merge.

(** No two entries of the list are the same application for the merge
    engine ([sameApp]: equal truthy [appid], or equal name key). *)
Fixpoint distinctApps (l : list game) : Prop :=
  match l with
  | [] => True
  | g :: r => Forall (λ h, sameApp g h = false) r ∧ distinctApps r
  end.

End Dedup.

(** ** Platform tags that are keys of the alias table itself *)

Module PlatformSpec.

(** The members [PLATFORM_ALIASES] inherits from [Object.prototype] whose
    names a lowercased key can spell; the other inherited names
    ([toString], [hasOwnProperty], ...) hold an upper-case letter. A lookup
    of one of these two yields an object or a function, not a tag. *)
Definition inherited : list string := ["constructor"; "__proto__"].

(** The key that [normalizePlatform] makes of [p] is not an inherited
    member. *)
Definition own_key (p : jsval) : Prop :=
  trim (toLowerCase (to_string p)) ∉ inherited.

End PlatformSpec.

(** ** Words for the retry loop *)

Module CacheSpec.
Import Cache.

(** The milliseconds the first [k] passes take together. *)
Fixpoint sum_durations (net : nat → attempt) (k : nat) : Z :=
  match k with
  | O => 0
  | S k' => sum_durations net k' + duration (net k')
  end.

(** What a pass that did not throw settles the promise with, and the
    file it wrote. *)
Definition answer_value (f : string) (r : remote) : result image_src :=
  match r with
  | DownloadOk _ => Ret (CacheFile f)
  | _ => Ret Placeholder
  end.

Definition answer_file (r : remote) : option Z :=
  match r with
  | DownloadOk bytes => Some bytes
  | _ => None
  end.

(** Remote services for the examples: one that answers on the second
    pass, one that is down, one that answers on the third pass. *)
Definition flaky : nat → attempt := λ i,
  match i with
  | O => Attempt SearchThrows 300
  | 1%nat => Attempt (DownloadOk 4096) 500
  | _ => Attempt GridsThrows 100
  end.

Definition down : nat → attempt := λ _, Attempt DownloadFails 200.

Definition slow_third : nat → attempt := λ i,
  match i with
  | 2%nat => Attempt (DownloadOk 4096) 400
  | _ => Attempt SearchThrows 300
  end.

End CacheSpec.

(** ** Words for the scan session *)

Module ScanSpec.
Import Scan.

(** The event is a failure of process [pid]: a spawn error, or an exit
    with a code other than 0 (or with none, after a signal). *)
Definition failure_of (pid : nat) (ev : event) : Prop :=
  ev = ProcError pid ∨ ∃ code, code ≠ Some 0 ∧ ev = Close pid code.

(** A helper leaves the catalog and the scanning flag alone. *)
Definition keeps (f : state → state) : Prop :=
  ∀ s, allGames (f s) = allGames s ∧ isScanning (f s) = isScanning s.


End ScanSpec.

(** ** CardRenderer: the batches and the card timers of
    [renderGamesWithProgress] *)

Module Render.

Definition batchSize : nat := 8.

(** [Math.ceil(visible.length / batchSize)]: the quotient by 8 is exact
    on doubles, so this is the integer ceiling. *)
Definition totalBatches (n : nat) : nat := (n + (batchSize - 1)) / batchSize.

(** [arr.slice(start, stop)] for [start] and [stop] within the array. *)
Definition slice {A} (l : list A) (start stop : nat) : list A :=
  take (stop - start) (drop start l).

(** The array [batch] of pass [batchIndex] of the loop. *)
Definition batchAt {A} (visible : list A) (batchIndex : nat) : list A :=
  let batchStart := (batchIndex * batchSize)%nat in
  let batchEnd := Nat.min (batchStart + batchSize) (length visible) in
  slice visible batchStart batchEnd.

(** The batches in the order the loop takes them. *)
Definition batches {A} (visible : list A) : list (list A) :=
  map (batchAt visible) (seq 0 (totalBatches (length visible))).

Definition BATCH_TIMEOUT : Z := 15000.

(** A card timer: [setTimeout(() => addCardToContainer(...), i * 50)], with
    the time it is due, the [globalIndex] of its entry and the entry. *)
Record pending := Pending {
  due : Z;
  index : nat;
  card : game
}.

(** The card timers of one batch, registered when [Promise.all] of the
    batch is fulfilled at [settled]:
    [batchResults.forEach(({ card }, i) => setTimeout(..., i * 50))]. *)
Fixpoint cardTimersFrom (settled : Z) (batchStart i : nat) (batch : list game)
  : list pending :=
  match batch with
  | [] => []
  | g :: rest =>
      Pending (settled + 50 * Z.of_nat i) (batchStart + i) g
      :: cardTimersFrom settled batchStart (S i) rest
  end.

Definition cardTimers (settled : Z) (batchStart : nat) (batch : list game)
  : list pending :=
  cardTimersFrom settled batchStart 0 batch.

(** The time [Promise.race] of a batch takes: the covers, or the 15 s of
    the timer. A tie goes to the timer. *)
Definition clip (t : Z) : Z := if t <? BATCH_TIMEOUT then t else BATCH_TIMEOUT.

(** The [for] loop over the batches, in one render that no other render
    interrupts: [load k] is the time the covers of batch [k] take
    ([Promise.all] of its [fetchGameImage] calls), [start] the time the
    pass begins. A batch that does not settle before the 15 s timer
    registers no card ([catch (batchError)]); the next pass begins 200 ms
    after the batch is done. The result lists the card timers in the order
    they are registered. *)
Fixpoint renderLoop (load : nat → Z) (bs : list (list game)) (batchIndex : nat)
    (start : Z) : list pending :=
  match bs with
  | [] => []
  | batch :: rest =>
      let settled := start + clip (load batchIndex) in
      (if load batchIndex <? BATCH_TIMEOUT
       then cardTimers settled (batchIndex * batchSize) batch
       else [])
      ++ renderLoop load rest (S batchIndex) (settled + 200)
  end.

(** When pass [k] of the loop begins and when its batch is done. *)
Fixpoint startAt (load : nat → Z) (k : nat) : Z :=
  match k with
  | O => 0
  | S k' => startAt load k' + clip (load k') + 200
  end.

Definition settledAt (load : nat → Z) (k : nat) : Z :=
  startAt load k + clip (load k).

(** Timers run in the order of their due times, and timers due at the
    same time in the order they were registered. *)
Definition due_cmp (a b : pending) : comparison := Z.compare (due a) (due b).

Definition by_due (a b : pending) : Prop := due a ≤ due b.

Definition fired (load : nat → Z) (visible : list game) : list pending :=
  sort_by due_cmp (renderLoop load (batches visible) 0 0).

(** [card.setAttribute('data-appid', g.appid)] *)
Definition card_key (g : game) : string := to_string (appid g).

(** The characters that would change what the selector
    [[data-appid="..."]] or the attribute written through [innerHTML]
    means: NUL, LF, FF, CR, the double quote, the ampersand and the
    backslash. *)
Definition plain_char (c : ascii) : bool :=
  negb (bool_decide (Ascii.N_of_ascii c ∈ [0; 10; 12; 13; 34; 38; 92]%N)).

Definition plain_key (g : game) : Prop :=
  Forall (λ c, plain_char c = true) (list_ascii_of_string (card_key g)).

(** [function addCardToContainer(container, card)]: the container as the
    list of its cards, for keys of plain characters (a card and its
    favourite button carry the same [data-appid]). *)
Definition addCardToContainer (container : list game) (c : game)
  : list game * bool :=
  if bool_decide (card_key c ∈ map card_key container)
  then (container, false)
  else (container ++ [c], true).

(** The cards of the container once every card timer has run. *)
Definition renderGamesWithProgress (load : nat → Z) (visible : list game)
  : list game :=
  foldl (λ container p, fst (addCardToContainer container (card p))) []
        (fired load visible).

(** Time the batches after the first need for the cards to appear in
    order: the last card timer of a full batch is due 350 ms after the
    batch settled, the next batch begins after 200 ms. *)
Definition in_step (load : nat → Z) : Prop :=
  ∀ k, 0 ≤ load k < BATCH_TIMEOUT ∧ 150 ≤ load (S k).

(** Every batch settles before its timer. *)
Definition in_time (load : nat → Z) : Prop :=
  ∀ k, 0 ≤ load k < BATCH_TIMEOUT.

#[global] Instance plain_key_dec g : Decision (plain_key g).
Proof. unfold plain_key. apply _. Defined.

(** A shelf of [n] entries with the appids 1 to [n]. *)
Definition shelf (n : nat) : list game :=
  map (λ i, Game (JStr "Foo") (JStr "steam") (JNum (Z.of_nat i)) [])
      (seq 1 n).

(** Covers that are all cached, and covers that take 150 ms a batch. *)
Definition cached_covers : nat → Z := λ _, 0.
Definition steady_covers : nat → Z := λ _, 150.

(** [x] comes before [y] in [l]. *)
Definition before {A} (x y : A) (l : list A) : Prop :=
  ∃ l1 l2 l3, l = l1 ++ x :: l2 ++ y :: l3.

End Render.

(** ** Favourites: [getFavorites] and [toggleFavorite] *)

Module Favorites.

(** [JSON.parse(JSON.stringify(v))] on an element of the array:
    [undefined] is written as [null]; strings, integers and [null] come
    back as they were. *)
Definition json_roundtrip (v : jsval) : jsval :=
  match v with
  | JUndefined => JNull
  | _ => v
  end.

(** [function toggleFavorite(appid)] on the parsed value of the
    [favorites] item of [localStorage]: the array stored afterwards, as
    [getFavorites] will parse it, and the toast. [includes] and [!==]
    agree on these values (there is no [NaN] among them). *)
Definition toggleFavorite (stored : list jsval) (appid : jsval)
  : list jsval * string :=
  let fav :=
    if bool_decide (appid ∈ stored)
    then filter (λ id, id ≠ appid) stored
    else stored ++ [appid] in
  (map json_roundtrip fav,
   if bool_decide (appid ∈ fav) then "Ajouté aux favoris"
   else "Retiré des favoris").

(** [getFavorites().includes(g.appid)], the test behind the star of a
    card and behind the "favorites" filter. *)
Definition isFav (stored : list jsval) (appid : jsval) : bool :=
  bool_decide (appid ∈ stored).

(** An array that came out of [JSON.parse] holds no [undefined]. *)
Definition parsed (stored : list jsval) : Prop := JUndefined ∉ stored.

End Favorites.

(** ** Words for the view *)

Module SortSpec.
Import Sort.

(** The filter callback returned [true] for the entry. *)
Definition shown_by (v : view) (g : game) : bool :=
  match isVisible v g with
  | Ret true => true
  | _ => false
  end.

(** The entry has a name that is a string. *)
Definition named (g : game) : bool :=
  match name g with
  | JStr _ => true
  | _ => false
  end.

End SortSpec.

(* ================================================================== *)
(** * Properties *)

(** ** The result monad *)

Section result_lemmas.
Context {A B : Type}.

Lemma mapM_Ret (f : A → result B) l ys :
    mapM f l = Ret ys → Forall2 (λ x y, f x = Ret y) l ys.
Proof.
    revert ys. induction l as [|x l IH]; intros ys; simpl.
    - intros [= <-]. constructor.
    - destruct (f x) as [y|e] eqn:Hx; simpl; [|discriminate].
      destruct (mapM f l) as [ys'|e] eqn:Hl; simpl; [|discriminate].
      intros [= <-]. constructor; auto.
Qed.

Lemma mapM_total (f : A → result B) l :
    Forall (λ x, ∃ y, f x = Ret y) l → ∃ ys, mapM f l = Ret ys.
Proof.
    induction 1 as [|x l [y Hy] _ [ys Hys]]; simpl.
    - eauto.
    - rewrite Hy; simpl. rewrite Hys; simpl. eauto.
Qed.

Lemma mapM_app (f : A → result B) l1 l2 ys1 ys2 :
    mapM f l1 = Ret ys1 → mapM f l2 = Ret ys2 →
    mapM f (l1 ++ l2) = Ret (ys1 ++ ys2).
Proof.
    revert ys1. induction l1 as [|x l1 IH]; intros ys1; simpl.
    - intros [= <-]. auto.
    - destruct (f x) as [y|e]; simpl; [|discriminate].
      destruct (mapM f l1) as [ys'|e]; simpl; [|discriminate].
      intros [= <-] H2. rewrite (IH ys' eq_refl H2). reflexivity.
Qed.

Lemma filterM_Ret (f : A → result bool) l ys :
    filterM f l = Ret ys →
    Forall (λ x, ∃ b, f x = Ret b) l ∧
    ∀ x, x ∈ ys ↔ x ∈ l ∧ f x = Ret true.
Proof.
    revert ys. induction l as [|x l IH]; intros ys; simpl.
    - intros [= <-]. split; [constructor|]. intros x. split.
      + intros H. inversion H.
      + intros [H _]. inversion H.
    - destruct (f x) as [b|e] eqn:Hx; simpl; [|discriminate].
      destruct (filterM f l) as [ys'|e] eqn:Hl; simpl; [|discriminate].
      intros [= <-]. destruct (IH ys' eq_refl) as [Hall Hin]. split.
      + constructor; eauto.
      + intros z. destruct b.
        * rewrite !elem_of_cons, Hin. split.
          -- intros [->|[? ?]]; auto.
          -- intros [[->|?] ?]; auto.
        * rewrite Hin, elem_of_cons. split.
          -- intros [? ?]; auto.
          -- intros [[->|?] Hz]; [congruence|auto].
Qed.

Lemma filterM_all_false (f : A → result bool) l :
    Forall (λ x, f x = Ret false) l → filterM f l = Ret [].
Proof.
    induction 1 as [|x l Hx _ IH]; simpl; [reflexivity|].
    rewrite Hx; simpl. rewrite IH. reflexivity.
Qed.
End result_lemmas.

(** ** CatalogMerger *)

Module MergeProps.
Import Merge Scenario.


Lemma existingNames_spec S names :
  existingNames S = Ret names →
  ∀ g, g ∈ S → ∃ k, nameKey g = Ret k ∧ k ∈ names.
Proof.
  unfold existingNames. destruct (mapM nameKey S) as [ks|e] eqn:Hks; simpl;
    [|discriminate].
  intros [= <-] g Hg. apply mapM_Ret in Hks.
  apply list_elem_of_lookup in Hg as [i Hi].
  destruct (Forall2_lookup_l _ _ _ _ _ Hks Hi) as (k & Hk & Hgk).
  exists k. split; [assumption|].
  apply elem_of_list_to_set. eapply list_elem_of_lookup_2; eauto.
Qed.

Lemma existingNames_app S U names :
  existingNames S = Ret names →
  Forall (λ g, ∃ k, nameKey g = Ret k) U →
  ∃ names', existingNames (S ++ U) = Ret names' ∧ names ⊆ names'.
Proof.
  unfold existingNames. destruct (mapM nameKey S) as [ks|e] eqn:Hks; simpl;
    [|discriminate].
  intros [= <-] HU. destruct (mapM_total _ _ HU) as [ku Hku].
  rewrite (mapM_app _ _ _ _ _ Hks Hku); simpl.
  eexists; split; [reflexivity|]. rewrite list_to_set_app_L.
  apply union_subseteq_l.
Qed.

Lemma existingAppIds_app S U :
  existingAppIds S ⊆ existingAppIds (S ++ U).
Proof.
  unfold existingAppIds. rewrite map_app, list_to_set_app_L.
  apply union_subseteq_l.
Qed.

(** A candidate the first pass rejected or pushed is rejected by a pass
    over the grown collection. *)
Lemma isUnique_after_push S U names names' g b :
  existingNames S = Ret names →
  existingNames (S ++ U) = Ret names' →
  names ⊆ names' →
  isUnique (existingAppIds S) names g = Ret b →
  (b = true → g ∈ U) →
  isUnique (existingAppIds (S ++ U)) names' g = Ret false.
Proof.
  intros HS HSU Hsub Hg Hacc. unfold isUnique in *.
  destruct (nameKey g) as [k|e] eqn:Hk; simpl in *; [|discriminate].
  injection Hg as Hb. f_equal.
  destruct b.
  - assert (Hin : g ∈ S ++ U) by (apply elem_of_app; right; auto).
    destruct (existingNames_spec _ _ HSU g Hin) as (k' & Hk' & Hkin).
    assert (k' = k) by congruence. subst k'.
    rewrite (bool_decide_eq_true_2 _ Hkin). simpl.
    apply andb_false_r.
  - apply andb_false_iff in Hb as [Hb|Hb].
    + apply negb_false_iff, andb_true_iff in Hb as [Ht Hid].
      apply bool_decide_eq_true_1 in Hid.
      pose proof (existingAppIds_app S U) as Hids.
      rewrite Ht, (bool_decide_eq_true_2 (appid g ∈ existingAppIds (S ++ U)));
        [reflexivity|apply Hids; assumption].
    + apply negb_false_iff, bool_decide_eq_true_1 in Hb.
      rewrite (bool_decide_eq_true_2 (k ∈ names')); [|apply Hsub; assumption].
      apply andb_false_r.
Qed.

(** C4. [merge] is idempotent: whatever the collection and the batch (and
    whether or not the page has its container), a second
    [appendNewGames] of the same batch pushes nothing, so the collection
    after two calls is the collection after one, entry for entry and in
    the same order. *)
Theorem merge_idempotent (container : bool) (allGames batch : list game) :
  let once := fst (appendNewGames container allGames batch) in
  let again := appendNewGames container once batch in
  fst again = once ∧ accepted (snd again) = [].
Proof.
  cbv zeta. unfold appendNewGames.
  destruct (is_empty batch); [auto|].
  destruct (negb container); [auto|].
  destruct (uniqueGamesOf allGames batch) as [U|e] eqn:HU; simpl fst.
  2:{ rewrite HU. auto. }
  destruct (is_empty U) eqn:HUe; simpl fst.
  { rewrite HU, HUe. auto. }
  enough (Hagain : uniqueGamesOf (allGames ++ U) batch = Ret [])
    by (rewrite Hagain; auto).
  unfold uniqueGamesOf in *.
  destruct (existingNames allGames) as [names|e] eqn:Hnames; simpl in HU;
    [|discriminate].
  destruct (filterM_Ret _ _ _ HU) as [Hall Hin].
  assert (HUk : Forall (λ g, ∃ k, nameKey g = Ret k) U).
  { apply Forall_forall. intros g Hg. apply Hin in Hg as [_ Hg].
    unfold isUnique in Hg. destruct (nameKey g); [eauto|discriminate]. }
  destruct (existingNames_app _ _ _ Hnames HUk) as (names' & Hnames' & Hsub).
  rewrite Hnames'; simpl.
  apply filterM_all_false, Forall_forall. intros g Hg.
  rewrite Forall_forall in Hall. destruct (Hall g Hg) as [b Hb].
  eapply isUnique_after_push; eauto.
  intros ->. apply Hin. auto.
Qed.

(** What the filter does check: a pushed entry is no duplicate of an entry
    the collection held before the call. *)
Lemma pushed_entries_are_new S B U :
  uniqueGamesOf S B = Ret U →
  ∀ g h, g ∈ U → h ∈ S → sameApp g h = false.
Proof.
  unfold uniqueGamesOf.
  destruct (existingNames S) as [names|e] eqn:Hnames; simpl; [|discriminate].
  intros HU g h Hg Hh. destruct (filterM_Ret _ _ _ HU) as [_ Hin].
  apply Hin in Hg as [_ Hu]. unfold isUnique in Hu.
  destruct (nameKey g) as [k|e] eqn:Hk; simpl in Hu; [|discriminate].
  injection Hu as Hu. apply andb_true_iff in Hu as [Hid Hname].
  apply negb_true_iff in Hid, Hname.
  apply bool_decide_eq_false_1 in Hname.
  destruct (existingNames_spec _ _ Hnames h Hh) as (kh & Hkh & Hkin).
  unfold sameApp. rewrite Hk, Hkh.
  apply orb_false_iff. split.
  - destruct (truthy (appid g)); [|reflexivity]. simpl in *.
    apply bool_decide_eq_false_1 in Hid.
    apply bool_decide_eq_false_2. intros Heq. apply Hid.
    rewrite Heq. unfold existingAppIds. apply elem_of_list_to_set.
    apply list_elem_of_fmap. exists h. auto.
  - apply bool_decide_eq_false_2. intros ->. contradiction.
Qed.

(** C1. A batch that carries the same not-yet-present record twice has both
    copies pushed: the two sets are built before the filter runs and are not
    extended while it runs. *)
Theorem batch_internal_duplicate_kept :
  appendNewGames true [] [foo; foo] = ([foo; foo], Ret [foo; foo])
  ∧ sameApp foo foo = true.
Proof. vm_compute. split; reflexivity. Qed.

End MergeProps.

(** ** JavaScript values and the scenario of the specification *)

Import Scenario.

Example to_string_num : to_string (JNum 730) = "730".
Proof. reflexivity. Qed.

Example trim_ex : trim "  Epic Games " = "Epic Games".
Proof. reflexivity. Qed.

Example normalizePlatform_alias :
  normalizePlatform (JStr " EpicGames ") = "epic"
  ∧ normalizePlatform JUndefined = "all"
  ∧ normalizePlatform (JStr "Itch") = "itch".
Proof. vm_compute. repeat split. Qed.

(** The two progress lines of the specification's scenario: "Foo", then
    "Foo" again with "Bar". *)
Example merge_scenario :
  Merge.merge (Merge.merge [] [foo]) [foo; bar] = [foo; bar].
Proof. vm_compute. reflexivity. Qed.

(** ** ScanSupervisor *)

Module ScanProps.
Import Merge Scan Scenario.

Section with_host.
Variable JSON_parse : string → result progressData.
Variable env : host.

Lemma foldl_preserves {A B} (P : A → Prop) (f : A → B → A) l a :
  (∀ a b, P a → P (f a b)) → P a → P (foldl f a l).
Proof.
  intros Hf. revert a. induction l as [|x l IH]; intros a Ha; simpl; auto.
Qed.


Lemma click_starts_session s :
  refresh_disabled s = false →
  isScanning (refreshClick env s) = true ∧ allGames (refreshClick env s) = [].
Proof.
  intros _. unfold refreshClick, tryPythonFallback, tryNextPythonCommand.
  destruct (exe_exists env); [split; reflexivity|].
  destruct (negb (script_exists env)).
  { unfold endScan. simpl. destruct (scanTimer s); split; reflexivity. }
  simpl. rewrite lookup_insert_eq. simpl. split; reflexivity.
Qed.


(** Images are requested by the render pass and by nothing else. *)
Lemma requested_only_by_render_pass s ev :
  (∀ h t b, ev = TimerFires h → timers s !! h = Some t →
            action t ≠ RenderPass b) →
  requested (step JSON_parse env s ev) = requested s.
Proof.
  assert (Hemit : ∀ e s0, (∀ g, e ≠ FetchGameImage g) →
                          requested (emit e s0) = requested s0).
  { intros e s0 He. unfold requested. simpl. rewrite omap_app. simpl.
    destruct e; try (rewrite app_nil_r; reflexivity).
    exfalso. eapply He. reflexivity. }
  assert (Hend : ∀ s0, requested (endScan s0) = requested s0).
  { intros s0. unfold endScan. destruct (scanTimer s0); reflexivity. }
  assert (Hstart : ∀ c cb s0,
            requested (startScanProcess c cb s0) = requested s0).
  { intros c cb s0. unfold startScanProcess, armScanTimer. simpl.
    change (requested (emit (SpawnProcess (next_pid s0) c) s0) = requested s0).
    apply Hemit. discriminate. }
  assert (Hnext : ∀ c s0, requested (tryNextPythonCommand c s0) = requested s0).
  { intros c s0. unfold tryNextPythonCommand.
    destruct (commandIndex s0 !! c); [|reflexivity].
    destruct (pythonCommands !! n); [apply Hstart|].
    rewrite Hend. apply Hemit. discriminate. }
  assert (Hfall : ∀ s0, requested (tryPythonFallback env s0) = requested s0).
  { intros s0. unfold tryPythonFallback.
    destruct (negb (script_exists env)).
    - rewrite Hend. apply Hemit. discriminate.
    - rewrite Hnext. reflexivity. }
  assert (Herr : ∀ cb s0, requested (runOnError env cb s0) = requested s0).
  { intros [|c] s0; simpl; [apply Hfall|]. rewrite Hnext. reflexivity. }
  intros Hev. destruct ev as [|pid text|pid code|pid|h]; simpl.
  - destruct (refresh_disabled s); [reflexivity|].
    unfold refreshClick.
    destruct (exe_exists env); [rewrite Hstart|rewrite Hfall]; reflexivity.
  - unfold onStdout. destruct (procs s !! pid) as [p|]; [|reflexivity].
    apply (foldl_preserves (λ s0, requested s0 = requested s));
      [|reflexivity].
    intros s0 x H0. unfold processLine.
    destruct (String.prefix _ x); [|assumption].
    destruct (JSON_parse _) as [pd|e].
    + destruct (is_empty _); simpl;
        (etrans; [|exact H0]);
        change (requested (emit (UpdateProgress (percentage pd)
                  (platformLabel pd) (games_found pd)) s0) = requested s0);
        apply Hemit; discriminate.
    + rewrite Hemit by discriminate. assumption.
  - unfold onClose. destruct (procs s !! pid) as [p|]; [|reflexivity].
    destruct (bool_decide _); [|apply Herr].
    rewrite Hend, Hemit by discriminate.
    unfold sortAndRender. destruct (sortAndRenderTimer s); reflexivity.
  - unfold onError. destruct (procs s !! pid) as [p|]; [|reflexivity].
    apply Herr.
  - unfold onTimer. destruct (timers s !! h) as [t|] eqn:Ht; [|reflexivity].
    destruct (action t) as [pid| |b] eqn:Ha.
    + rewrite Hend, !Hemit by discriminate. reflexivity.
    + reflexivity.
    + exfalso. exact (Hev h t b eq_refl Ht Ha).
Qed.

(** C6 as amended. A [PROGRESS:] line whose payload parses and whose batch
    is not empty reports the progress and hands the batch to
    [appendNewGames]; it requests no image and arms no timer, so no render
    pass and no [fetchGameImage] follows from it. *)
Theorem progress_unit_merges_without_warmup s line pd :
  String.prefix "PROGRESS:" line = true →
  JSON_parse (substring_from 9 line) = Ret pd →
  games pd ≠ [] →
  let s' := processLine JSON_parse env s line in
  allGames s' = fst (appendNewGames (container env) (allGames s) (games pd))
  ∧ trace s' = trace s ++ [UpdateProgress (percentage pd) (platformLabel pd)
                             (games_found pd)]
  ∧ timers s' = timers s
  ∧ ∀ g, FetchGameImage g ∈ trace s' → FetchGameImage g ∈ trace s.
Proof.
  intros Hp Hparse Hg. cbv zeta. unfold processLine. rewrite Hp, Hparse.
  destruct (games pd) as [|g0 l] eqn:Hgames; [congruence|].
  simpl. repeat split.
  intros g Hin. apply elem_of_app in Hin as [Hin|Hin]; [assumption|].
  apply list_elem_of_singleton in Hin. discriminate.
Qed.

End with_host.




Lemma progress_unit_merges_without_warmup_witness :
  let s := step parse_foo both (init [] Sort.default_view) Click in
  let s' := processLine parse_foo both s "PROGRESS:{}" in
  allGames s' = [foo] ∧ timers s' = timers s.
Proof.
  cbv zeta.
  destruct (progress_unit_merges_without_warmup parse_foo both
              (step parse_foo both (init [] Sort.default_view) Click)
              "PROGRESS:{}" unit_foo)
    as (Hall & _ & Htimers & _);
    [reflexivity|reflexivity|discriminate|].
  split; [rewrite Hall; reflexivity|exact Htimers].
Defined.

(** The entry [foo] is accepted into an empty collection and no image is
    requested for it. *)
Lemma no_warmup_during_scan : ¬ warmup_requested.
Proof.
  intros H.
  specialize (H parse_foo both (init [] Sort.default_view) "PROGRESS:{}"
                unit_foo eq_refl eq_refl ltac:(discriminate) foo).
  assert (Hin : foo ∈ accepted (snd (appendNewGames (container both)
                   (allGames (init [] Sort.default_view)) (games unit_foo)))).
  { vm_compute. apply list_elem_of_here. }
  specialize (H Hin). vm_compute in H.
  apply elem_of_cons in H as [H|H]; [discriminate|].
  inversion H.
Qed.

(** The executable exists and exits with code 1, so the Python fallback
    starts: the timer armed for the executable is still pending beside the
    one armed for [python], and it is still pending after [python] has
    exited with code 0 and [endScan] has run. *)
Example fallback_leaves_two_timers :
  let s1 := run parse_foo both (init [] Sort.default_view)
              [Click; Close 1 (Some 1)] in
  let s2 := step parse_foo both s1 (Close 2 (Some 0)) in
  pendingScanTimers s1 = [(2, 2); (1, 1)]%nat
  ∧ scanTimer s1 = Some 2%nat
  ∧ pendingScanTimers s2 = [(1, 1)]%nat
  ∧ scanTimer s2 = None.
Proof. vm_compute. repeat split. Qed.

(** A whole scan: the entry arrives in a progress line, no image is
    requested until the scanner has exited with code 0 and the render timer
    has fired. *)
Example cover_requested_by_final_render :
  let s1 := run parse_foo both (init [] Sort.default_view)
              [Click; StdoutData 1 ("PROGRESS:{}" +:+ String "010" EmptyString);
               Close 1 (Some 0)] in
  allGames s1 = [foo]
  ∧ requested s1 = []
  ∧ timers s1 !! 2%nat = Some (Timer (RenderPass false) 150)
  ∧ requested (step parse_foo both s1 (TimerFires 2)) = [foo].
Proof. vm_compute. repeat split. Qed.

(** The stray timer of the failed executable fires while [python] runs:
    it kills process 1, which has exited, and its [endScan] disarms the
    timer of process 2; one second later the interface is idle although
    process 2 was never closed, and a click starts process 3. *)
Example stray_timer_ends_the_session :
  let s1 := run parse_foo both (init [] Sort.default_view)
              [Click; Close 1 (Some 1); TimerFires 1] in
  let s2 := run parse_foo both s1 [TimerFires 3; Click] in
  pendingScanTimers s1 = []
  ∧ trace s1 = [SpawnProcess 1 "unified_scanner.exe"; SpawnProcess 2 "python";
                KillProcess 1; ShowToast "Analyse interrompue (timeout)"]
  ∧ trace s2 = trace s1 ++ [SpawnProcess 3 "unified_scanner.exe"].
Proof. vm_compute. repeat split. Qed.


End ScanProps.

(** ** ImageCache: [fetchGameImage] *)

Module CacheProps.
Import Cache Scenario.

Ltac io_unfold :=
  unfold mbind, mret, io_bind, io_ret, try_catch, existsSync, statSync,
    unlinkSync, utimesSync in *.








Lemma fetchGameImage_miss env net g timeout d d1 :
  cacheCheck env (fileName g) d = (Ret None, d1) →
  fetchGameImage env net g timeout d
  = fetchRemote env net (fileName g) timeout d1.
Proof.
  intros Hc. unfold fetchGameImage. unfold mbind at 1, io_bind at 1.
  rewrite Hc. reflexivity.
Qed.


Lemma cached_cover_hit env net g timeout d st :
  d !! fileName g = Some st →
  1024 < size st →
  fileName g ∉ unreadable env →
  fileName g ∉ untouchable env →
  fetchGameImage env net g timeout d
  = (Ret (CacheFile (fileName g)),
     <[fileName g := Fstat (size st) (now env)]> d).
Proof.
  intros Hd Hsz Hr Hu. unfold fetchGameImage, cacheCheck. io_unfold.
  rewrite Hd. simpl.
  assert (Hr' : bool_decide (fileName g ∈ unreadable env) = false)
    by (apply bool_decide_eq_false_2; assumption).
  assert (Hu' : bool_decide (fileName g ∈ untouchable env) = false)
    by (apply bool_decide_eq_false_2; assumption).
  apply Z.ltb_lt in Hsz.
  repeat (first [rewrite Hd | rewrite Hr' | rewrite Hu' | rewrite Hsz
                | progress simpl]).
  reflexivity.
Qed.


(** C10. The file name ignores everything but [platform] and [appid]: two
    entries of one platform without [appid] share the cache file
    [<platform>_undefined.jpg], and once a cover is cached under that name
    the call for either entry returns the URL of that one file. *)
Theorem entries_without_appid_share_cover env net g1 g2 timeout d st :
  appid g1 = JUndefined →
  appid g2 = JUndefined →
  platform g1 = platform g2 →
  d !! fileName g1 = Some st →
  1024 < size st →
  fileName g1 ∉ unreadable env →
  fileName g1 ∉ untouchable env →
  fileName g2 = fileName g1
  ∧ fileName g1 = to_string (platform g1) +:+ "_undefined.jpg"
  ∧ fst (fetchGameImage env net g2 timeout d) = Ret (CacheFile (fileName g1))
  ∧ fst (fetchGameImage env net g1 timeout d) = Ret (CacheFile (fileName g1)).
Proof.
  intros H1 H2 Hp Hd Hsz Hr Hu.
  assert (Hn : fileName g2 = fileName g1).
  { unfold fileName. rewrite H1, H2, Hp. reflexivity. }
  split; [exact Hn|]. split.
  { unfold fileName. rewrite H1. reflexivity. }
  split.
  - rewrite (cached_cover_hit env net g2 timeout d st) by (rewrite ?Hn; auto).
    rewrite Hn. reflexivity.
  - rewrite (cached_cover_hit env net g1 timeout d st) by auto. reflexivity.
Qed.


Lemma entries_without_appid_share_cover_witness :
  notepad ≠ paint
  ∧ fileName paint = "all_undefined.jpg"
  ∧ fst (fetchGameImage quiet unknown_game paint 3000 shared_cover)
    = Ret (CacheFile (fileName notepad)).
Proof.
  split; [discriminate|].
  destruct (entries_without_appid_share_cover quiet unknown_game
              notepad paint 3000 shared_cover (Fstat 4096 5)
              eq_refl eq_refl eq_refl eq_refl eq_refl
              (not_elem_of_empty _) (not_elem_of_empty _))
    as (Hn & _ & H2 & _).
  split; [rewrite Hn; reflexivity|exact H2].
Defined.

End CacheProps.

(** ** ImageCache: [cleanupCache] *)

Module SweepProps.
Import Cache Scenario.

Lemma insert_by_perm {A} (cmp : A → A → comparison) x l :
  insert_by cmp x l ≡ₚ x :: l.
Proof.
  induction l as [|y l IH]; simpl; [reflexivity|].
  destruct (cmp x y); try reflexivity.
  rewrite IH. apply Permutation_swap.
Qed.

Lemma sort_by_perm {A} (cmp : A → A → comparison) l : sort_by cmp l ≡ₚ l.
Proof.
  induction l as [|x l IH]; simpl; [reflexivity|].
  rewrite insert_by_perm, IH. reflexivity.
Qed.

Lemma insert_by_mtime_sorted x l :
  StronglySorted by_mtime l → StronglySorted by_mtime (insert_by mtime_cmp x l).
Proof.
  induction 1 as [|y l Hl IH Hy]; simpl; [repeat constructor|].
  unfold mtime_cmp at 1.
  destruct (Z.compare_spec (mtime x.2) (mtime y.2)) as [He|Hlt|Hgt].
  - constructor; [constructor; assumption|].
    constructor; [unfold by_mtime; lia|].
    eapply Forall_impl; [exact Hy|]. unfold by_mtime. intros; lia.
  - constructor; [constructor; assumption|].
    constructor; [unfold by_mtime; lia|].
    eapply Forall_impl; [exact Hy|]. unfold by_mtime. intros; lia.
  - constructor; [exact IH|].
    rewrite insert_by_perm. constructor; [unfold by_mtime; lia|exact Hy].
Qed.

Lemma sort_by_mtime_sorted l : StronglySorted by_mtime (sort_by mtime_cmp l).
Proof.
  induction l as [|x l IH]; simpl; [constructor|].
  apply insert_by_mtime_sorted, IH.
Qed.

Lemma fileCount_size (d : dir) : fileCount d = base.size d.
Proof.
  unfold fileCount, readdirSync. rewrite length_fmap.
  apply length_map_to_list.
Qed.

Lemma statAll_cons env f l d :
  statAll env (f :: l) d
  = match statSync env f d with
    | (Ret st, d1) =>
        match statAll env l d1 with
        | (Ret r, d2) => (Ret ((f, st) :: r), d2)
        | (Throw e, d2) => (Throw e, d2)
        end
    | (Throw e, d1) => (Throw e, d1)
    end.
Proof.
  unfold statAll. simpl. unfold mbind, io_bind.
  destruct (statSync env f d) as [[st|e] d1]; reflexivity.
Qed.

Lemma unlinkEach_cons env p l d :
  unlinkEach env (p :: l) d = unlinkEach env l (snd (unlink_logged env p.1 d)).
Proof.
  unfold unlinkEach. simpl. unfold mbind, io_bind, unlink_logged, try_catch.
  destruct (unlinkSync env p.1 d) as [[[]|e] d1]; reflexivity.
Qed.

Lemma statAll_listed env l d :
  listed env l d → statAll env l.*1 d = (Ret l, d).
Proof.
  induction l as [|[f st] l IH]; intros Hl; [reflexivity|].
  rewrite fmap_cons, statAll_cons. simpl. unfold statSync.
  destruct (Hl f st) as [Hf Hr]; [apply list_elem_of_here|].
  rewrite Hf, bool_decide_eq_false_2 by assumption.
  rewrite IH; [reflexivity|].
  intros f' st' Hin. apply Hl. apply list_elem_of_further. assumption.
Qed.

Lemma listed_map_to_list env (d : dir) :
  (∀ f, is_Some (d !! f) → f ∉ unreadable env) →
  listed env (map_to_list d) d.
Proof.
  intros Hr f st Hin. apply elem_of_map_to_list in Hin. split; eauto.
Qed.

Lemma shrinks_ret {A} (a : A) : shrinks (mret a).
Proof. intros d. reflexivity. Qed.

Lemma shrinks_bind {A B} (m : io A) (k : A → io B) :
  shrinks m → (∀ a, shrinks (k a)) → shrinks (m ≫= k).
Proof.
  intros Hm Hk d. unfold mbind, io_bind. specialize (Hm d).
  destruct (m d) as [[a|e] d1]; simpl in *; [|assumption].
  etrans; [apply Hk|assumption].
Qed.

Lemma shrinks_try {A} (m : io A) (h : string → io A) :
  shrinks m → (∀ e, shrinks (h e)) → shrinks (try_catch m h).
Proof.
  intros Hm Hh d. unfold try_catch. specialize (Hm d).
  destruct (m d) as [[a|e] d1]; simpl in *; [assumption|].
  etrans; [apply Hh|assumption].
Qed.

Lemma shrinks_stat env f : shrinks (statSync env f).
Proof.
  intros d. unfold statSync.
  destruct (d !! f); [destruct (bool_decide _)|]; reflexivity.
Qed.

Lemma shrinks_unlink env f : shrinks (unlinkSync env f).
Proof.
  intros d. unfold unlinkSync.
  destruct (d !! f); [destruct (bool_decide _)|]; simpl;
    try reflexivity.
  apply delete_subseteq.
Qed.

Lemma shrinks_statAll env l : shrinks (statAll env l).
Proof.
  induction l as [|f l IH]; [apply shrinks_ret|].
  unfold statAll in *. simpl. apply shrinks_bind; [apply shrinks_stat|].
  intros st. apply shrinks_bind; [exact IH|]. intros r. apply shrinks_ret.
Qed.

Lemma shrinks_unlinkEach env l : shrinks (unlinkEach env l).
Proof.
  induction l as [|p l IH]; [apply shrinks_ret|].
  unfold unlinkEach in *. simpl. apply shrinks_bind; [|intros _; exact IH].
  apply shrinks_try; [apply shrinks_unlink|]. intros _. apply shrinks_ret.
Qed.

Lemma shrinks_evictLoop env l cur : shrinks (evictLoop env l cur).
Proof.
  revert cur. induction l as [|[f st] l IH]; intros cur d; simpl;
    [reflexivity|].
  destruct (under_target cur); [reflexivity|].
  pose proof (shrinks_unlink env f d) as Hu.
  destruct (unlinkSync env f d) as [[[]|e] d1]; simpl in *;
    (etrans; [apply IH|assumption]).
Qed.

Lemma shrinks_countPass env files : shrinks (countPass env files).
Proof.
  unfold countPass. destruct (Nat.ltb _ _); [|apply shrinks_ret].
  apply shrinks_bind; [apply shrinks_statAll|].
  intros l. apply shrinks_unlinkEach.
Qed.

Lemma shrinks_bytePass env files : shrinks (bytePass env files).
Proof.
  intros d. unfold bytePass. destruct (over_budget _); [|reflexivity].
  apply (shrinks_bind (statAll env files)); [apply shrinks_statAll|].
  intros l. apply shrinks_evictLoop.
Qed.

Lemma cleanupCache_subseteq env d : cleanupCache env d ⊆ d.
Proof.
  unfold cleanupCache. apply shrinks_try; [|intros _; apply shrinks_ret].
  apply shrinks_bind; [apply shrinks_countPass|].
  intros _. apply shrinks_bytePass.
Qed.

(** [unlinkEach] on files that are there and can be deleted. *)
Lemma unlinkEach_deletes env l (d : dir) :
  NoDup l.*1 →
  (∀ p, p ∈ l → is_Some (d !! p.1) ∧ p.1 ∉ locked env) →
  ∃ d', unlinkEach env l d = (Ret tt, d')
        ∧ (base.size d' + length l = base.size d)%nat
        ∧ ∀ f, d' !! f = if bool_decide (f ∈ l.*1) then None else d !! f.
Proof.
  revert d. induction l as [|[f st] l IH]; intros d Hnd Hl.
  - exists d. split; [reflexivity|]. split; [simpl; lia|].
    intros f. reflexivity.
  - rewrite fmap_cons in Hnd. apply NoDup_cons in Hnd as [Hf Hnd].
    destruct (Hl (f, st)) as [[st0 Hst0] Hlk]; [apply list_elem_of_here|].
    simpl in Hst0, Hlk.
    destruct (IH (delete f d) Hnd) as (d' & Hrun & Hsz & Hlook).
    { intros p Hp. destruct (Hl p) as [Hp1 Hp2];
        [apply list_elem_of_further; assumption|].
      split; [|assumption]. rewrite lookup_delete_ne; [assumption|].
      intros ->. apply Hf. apply list_elem_of_fmap. exists p. auto. }
    exists d'. split; [|split].
    + rewrite unlinkEach_cons. unfold unlink_logged, try_catch, unlinkSync.
      simpl. rewrite Hst0, bool_decide_eq_false_2 by assumption.
      exact Hrun.
    + rewrite map_size_delete, Hst0 in Hsz. simpl length.
      assert (base.size d ≠ 0%nat).
      { intros H0. apply map_size_empty_inv in H0. subst d.
        rewrite lookup_empty in Hst0. discriminate. }
      lia.
    + intros f'. rewrite Hlook, fmap_cons. simpl.
      destruct (decide (f' = f)) as [->|Hne].
      * rewrite (bool_decide_eq_true_2 (f ∈ f :: l.*1))
          by apply list_elem_of_here.
        rewrite lookup_delete_eq. destruct (bool_decide _); reflexivity.
      * rewrite lookup_delete_ne by congruence.
        destruct (bool_decide (f' ∈ l.*1)) eqn:Hin.
        -- apply bool_decide_eq_true_1 in Hin.
           rewrite bool_decide_eq_true_2; [reflexivity|].
           apply list_elem_of_further. assumption.
        -- apply bool_decide_eq_false_1 in Hin.
           rewrite bool_decide_eq_false_2; [reflexivity|].
           intros H. apply elem_of_cons in H as [?|?]; congruence.
Qed.







(** The count block alone, on a directory of more than [MAX_FILES] files:
    exactly the 200 oldest go. *)
Lemma countPass_deletes_200 env (d : dir) :
  cooperative env d →
  (MAX_FILES < fileCount d)%nat →
  ∃ d', countPass env (readdirSync d) d = (Ret tt, d')
        ∧ (fileCount d' + 200 = fileCount d)%nat
        ∧ d' ⊆ d
        ∧ ∀ f st f' st', d !! f = Some st → d' !! f = None →
                          d' !! f' = Some st' → mtime st ≤ mtime st'.
Proof.
  intros Hco Hn. unfold countPass. fold (fileCount d).
  apply Nat.ltb_lt in Hn as Hn'. rewrite Hn'.
  unfold mbind, io_bind, readdirSync.
  rewrite statAll_listed
    by (apply listed_map_to_list; intros f Hf; apply Hco; assumption).
  set (sorted := sort_by mtime_cmp (map_to_list d)).
  assert (Hperm : sorted ≡ₚ map_to_list d) by apply sort_by_perm.
  assert (Hsorted : StronglySorted by_mtime sorted)
    by apply sort_by_mtime_sorted.
  assert (Hnd : NoDup sorted.*1).
  { rewrite Hperm. apply NoDup_fst_map_to_list. }
  assert (Hlen : length sorted = fileCount d).
  { rewrite Hperm. unfold fileCount, readdirSync. rewrite length_fmap.
    reflexivity. }
  rewrite <- (take_drop 200 sorted) in Hnd, Hsorted.
  rewrite fmap_app in Hnd. apply NoDup_app in Hnd as (Hnd1 & Hdisj & _).
  destruct (unlinkEach_deletes env (take 200 sorted) d Hnd1)
    as (d' & Hrun & Hsz & Hlook).
  { intros [f st] Hin. apply (subseteq_take 200 sorted) in Hin.
    rewrite Hperm in Hin. apply elem_of_map_to_list in Hin. simpl.
    split; [eauto|]. apply Hco. eauto. }
  exists d'. split; [exact Hrun|].
  rewrite length_take_le in Hsz by (unfold MAX_FILES in Hn; lia).
  split; [rewrite !fileCount_size; exact Hsz|].
  split.
  { apply map_subseteq_spec. intros f st. rewrite Hlook.
    destruct (bool_decide _); [discriminate|auto]. }
  intros f st f' st' Hf Hgone Hkept.
  rewrite Hlook in Hgone, Hkept.
  destruct (bool_decide (f ∈ (take 200 sorted).*1)) eqn:Hin;
    [|congruence].
  destruct (bool_decide (f' ∈ (take 200 sorted).*1)) eqn:Hin';
    [discriminate|].
  apply bool_decide_eq_true_1 in Hin. apply bool_decide_eq_false_1 in Hin'.
  apply list_elem_of_fmap in Hin as ([f0 st0] & -> & Hin). simpl in *.
  assert (st0 = st) as ->.
  { apply (subseteq_take 200 sorted) in Hin as Hin0. rewrite Hperm in Hin0.
    apply elem_of_map_to_list in Hin0. congruence. }
  assert (Hin2 : (f', st') ∈ drop 200 sorted).
  { assert (H : (f', st') ∈ sorted)
      by (rewrite Hperm; apply elem_of_map_to_list; assumption).
    rewrite <- (take_drop 200 sorted) in H.
    apply elem_of_app in H as [H|H]; [|assumption].
    exfalso. apply Hin'. apply list_elem_of_fmap. exists (f', st'). auto. }
  exact (StronglySorted_app_1_elem_of by_mtime _ _ _ _ Hsorted Hin Hin2).
Qed.

Lemma fileCount_subseteq (d1 d2 : dir) :
  d1 ⊆ d2 → (fileCount d1 ≤ fileCount d2)%nat.
Proof. intros H. rewrite !fileCount_size. apply map_subseteq_size, H. Qed.

Lemma quiet_cooperative d : cooperative quiet d.
Proof. intros f _. split; apply not_elem_of_empty. Qed.




(** When both blocks apply, the second one aborts: its [statSync] throws
    on a file the first block deleted, so nothing is evicted for the byte
    budget. 1001 files of 1 MB: 801 MB are left, above the 500 MB. *)
Example byte_block_aborts_after_count_block :
  let d := list_to_map
             (map (λ i, (string_of_N (N.of_nat i), Fstat MB (Z.of_nat i)))
                  (seq 0 1001)) : dir in
  dirBytes (cleanupCache quiet d) = 801 * MB.
Proof. vm_compute. reflexivity. Qed.

End SweepProps.

(** ** RenderScheduler: the order of the view *)

Module SortProps.
Import Sort Scenario.

Example getSortName_articles :
  getSortName "L'  Odyssey" = "Odyssey"
  ∧ getSortName "An   Apple  a day " = "Apple a day"
  ∧ getSortName "Anthem" = "Anthem"
  ∧ getSortName "LES Sims" = "Sims".
Proof. vm_compute. repeat split. Qed.

Example localeCompare_numeric :
  localeCompare "Fifa 9" "FIFA 10" = Lt ∧ localeCompare "abc" "ABC" = Eq.
Proof. vm_compute. split; reflexivity. Qed.



End SortProps.

(** ** CatalogMerger: what a call appends *)

Module MergeMore.
Import Merge Dedup Scenario.

Lemma filterM_sublist {A} (f : A → result bool) l ys :
  filterM f l = Ret ys → ys `sublist_of` l.
Proof.
  revert ys. induction l as [|x l IH]; intros ys; simpl.
  - intros [= <-]. constructor.
  - destruct (f x) as [b|e]; simpl; [|discriminate].
    destruct (filterM f l) as [ys'|e]; simpl; [|discriminate].
    intros [= <-]. destruct b; [apply sublist_skip|apply sublist_cons]; auto.
Qed.

Lemma sameApp_sym g h : sameApp g h = sameApp h g.
Proof.
  unfold sameApp. f_equal.
  - destruct (decide (appid g = appid h)) as [He|Hne].
    + rewrite He, !bool_decide_eq_true_2 by reflexivity. reflexivity.
    + rewrite !bool_decide_eq_false_2 by congruence.
      rewrite !andb_false_r. reflexivity.
  - destruct (nameKey g) as [a|], (nameKey h) as [b|]; try reflexivity.
    apply bool_decide_ext. split; congruence.
Qed.

Lemma appendNewGames_shape container (allGames batch : list game) :
  fst (appendNewGames container allGames batch)
  = allGames ++ accepted (snd (appendNewGames container allGames batch))
  ∧ accepted (snd (appendNewGames container allGames batch))
    `sublist_of` map normalizeGame batch.
Proof.
  unfold appendNewGames.
  destruct (is_empty batch);
    [simpl; rewrite app_nil_r; split; [reflexivity|apply sublist_nil_l]|].
  destruct (negb container);
    [simpl; rewrite app_nil_r; split; [reflexivity|apply sublist_nil_l]|].
  destruct (uniqueGamesOf allGames batch) as [U|e] eqn:HU;
    [|simpl; rewrite app_nil_r; split; [reflexivity|apply sublist_nil_l]].
  destruct (is_empty U);
    [simpl; rewrite app_nil_r; split; [reflexivity|apply sublist_nil_l]|].
  simpl. split; [reflexivity|].
  unfold uniqueGamesOf in HU.
  destruct (existingNames allGames); simpl in HU; [|discriminate].
  eapply filterM_sublist; eassumption.
Qed.

(** What [appendNewGames] returns, whatever it is given: the old
    collection, untouched and in its order, followed by the entries it
    reports as pushed, which are entries of the normalised batch in the
    order of the batch. *)
Theorem appendNewGames_only_appends container (allGames batch : list game) :
  let r := appendNewGames container allGames batch in
  fst r = allGames ++ accepted (snd r)
  ∧ accepted (snd r) `sublist_of` map normalizeGame batch.
Proof. cbv zeta. apply appendNewGames_shape. Qed.

Lemma accepted_unique container (allGames batch : list game) g :
  g ∈ accepted (snd (appendNewGames container allGames batch)) →
  ∃ U, uniqueGamesOf allGames batch = Ret U ∧ g ∈ U.
Proof.
  unfold appendNewGames.
  destruct (is_empty batch); [simpl; intros H; inversion H|].
  destruct (negb container); [simpl; intros H; inversion H|].
  destruct (uniqueGamesOf allGames batch) as [U|e];
    [|simpl; intros H; inversion H].
  destruct (is_empty U); [simpl; intros H; inversion H|].
  simpl. eauto.
Qed.

(** An entry that a call pushes is no duplicate of an entry the collection
    held before the call, by [appid] or by name and platform, whichever
    of the two is asked first. *)
Theorem appended_entry_is_new container (allGames batch : list game) g h :
  g ∈ accepted (snd (appendNewGames container allGames batch)) →
  h ∈ allGames →
  sameApp g h = false ∧ sameApp h g = false.
Proof.
  intros Hg Hh. destruct (accepted_unique _ _ _ _ Hg) as (U & HU & HgU).
  pose proof (MergeProps.pushed_entries_are_new _ _ _ HU g h HgU Hh) as H.
  split; [exact H|]. rewrite sameApp_sym. exact H.
Qed.

Lemma appended_entry_is_new_witness :
  sameApp (normalizeGame bar) foo = false.
Proof.
  apply (appended_entry_is_new true [foo] [foo; bar] (normalizeGame bar) foo).
  - vm_compute. apply list_elem_of_here.
  - apply list_elem_of_here.
Defined.

Lemma distinctApps_sublist l1 l2 :
  l1 `sublist_of` l2 → distinctApps l2 → distinctApps l1.
Proof.
  induction 1 as [|x l1 l2 Hs IH|x l1 l2 Hs IH]; simpl.
  - auto.
  - intros [Hx Hr]. split; [|auto].
    apply Forall_forall. intros h Hh. rewrite Forall_forall in Hx.
    apply Hx. eapply elem_of_sublist; eassumption.
  - intros [_ Hr]. auto.
Qed.

Lemma distinctApps_app l1 l2 :
  distinctApps l1 → distinctApps l2 →
  (∀ g h, g ∈ l1 → h ∈ l2 → sameApp g h = false) →
  distinctApps (l1 ++ l2).
Proof.
  induction l1 as [|x l1 IH]; simpl; [auto|].
  intros [Hx H1] H2 Hc. split.
  - apply Forall_app. split; [exact Hx|].
    apply Forall_forall. intros h Hh. apply Hc; [apply list_elem_of_here|auto].
  - apply IH; auto. intros g h Hg Hh. apply Hc; [|auto].
    apply list_elem_of_further. exact Hg.
Qed.

(** The collection stays free of duplicates as long as no batch carries
    the same application twice: if no two entries of [allGames] and no
    two entries of the normalised batch are the same application, no two
    entries of the collection after the call are. *)
Theorem distinct_batches_keep_catalog_distinct container
    (allGames batch : list game) :
  distinctApps allGames →
  distinctApps (map normalizeGame batch) →
  distinctApps (fst (appendNewGames container allGames batch)).
Proof.
  intros HS HB.
  destruct (appendNewGames_shape container allGames batch)
    as [Heq Hsub].
  rewrite Heq. apply distinctApps_app; [exact HS| |].
  - eapply distinctApps_sublist; eassumption.
  - intros h g Hh Hg.
    destruct (accepted_unique _ _ _ _ Hg) as (U & HU & HgU).
    rewrite sameApp_sym.
    exact (MergeProps.pushed_entries_are_new _ _ _ HU g h HgU Hh).
Qed.

Lemma distinct_batches_keep_catalog_distinct_witness :
  distinctApps (fst (appendNewGames true [foo] [bar; notepad])).
Proof.
  apply distinct_batches_keep_catalog_distinct.
  - vm_compute. auto.
  - vm_compute. repeat split; repeat constructor.
Defined.

End MergeMore.

(** ** Platform tags *)

Module PlatformProps.
Import PlatformSpec.

Lemma lower_ascii_idemp c : lower_ascii (lower_ascii c) = lower_ascii c.
Proof. destruct c as [[] [] [] [] [] [] [] []]; vm_compute; reflexivity. Qed.

Lemma is_space_lower c : is_space (lower_ascii c) = is_space c.
Proof. destruct c as [[] [] [] [] [] [] [] []]; vm_compute; reflexivity. Qed.

Lemma toLowerCase_idemp s : toLowerCase (toLowerCase s) = toLowerCase s.
Proof.
  induction s as [|c s IH]; simpl; [reflexivity|].
  rewrite lower_ascii_idemp, IH. reflexivity.
Qed.

Lemma toLowerCase_trimStart s :
  toLowerCase (trimStart s) = trimStart (toLowerCase s).
Proof.
  induction s as [|c s IH]; simpl; [reflexivity|].
  rewrite is_space_lower. destruct (is_space c); [exact IH|reflexivity].
Qed.

Lemma toLowerCase_list s :
  toLowerCase s
  = string_of_list_ascii (List.map lower_ascii (list_ascii_of_string s)).
Proof. induction s as [|c s IH]; simpl; [reflexivity|]. rewrite IH. reflexivity. Qed.

Lemma toLowerCase_rev s : toLowerCase (rev_string s) = rev_string (toLowerCase s).
Proof.
  unfold rev_string. rewrite !toLowerCase_list.
  rewrite !list_ascii_of_string_of_list_ascii. rewrite List.map_rev.
  reflexivity.
Qed.

Lemma toLowerCase_trim s : toLowerCase (trim s) = trim (toLowerCase s).
Proof.
  unfold trim, trimEnd.
  rewrite toLowerCase_rev, toLowerCase_trimStart, toLowerCase_rev,
    toLowerCase_trimStart.
  reflexivity.
Qed.

Lemma rev_string_involutive s : rev_string (rev_string s) = s.
Proof.
  unfold rev_string. rewrite list_ascii_of_string_of_list_ascii.
  rewrite List.rev_involutive. apply string_of_list_ascii_of_string.
Qed.

Lemma trimStart_idemp s : trimStart (trimStart s) = trimStart s.
Proof.
  induction s as [|c s IH]; simpl; [reflexivity|].
  destruct (is_space c) eqn:Hc; [exact IH|]. simpl. rewrite Hc. reflexivity.
Qed.

Lemma rev_string_snoc s c :
  rev_string (s +:+ String c EmptyString) = String c (rev_string s).
Proof.
  unfold rev_string.
  assert (H : list_ascii_of_string (s +:+ String c EmptyString)
              = (list_ascii_of_string s ++ [c])%list).
  { induction s as [|a s IH]; simpl; [reflexivity|]. rewrite IH. reflexivity. }
  rewrite H, List.rev_app_distr. reflexivity.
Qed.

Lemma rev_string_cons c s :
  rev_string (String c s) = rev_string s +:+ String c EmptyString.
Proof.
  rewrite <- (rev_string_involutive (rev_string s +:+ String c EmptyString)).
  rewrite rev_string_snoc, rev_string_involutive. reflexivity.
Qed.

Lemma trimStart_snoc s c :
  is_space c = false →
  trimStart (s +:+ String c EmptyString)
  = trimStart s +:+ String c EmptyString.
Proof.
  intros Hc. induction s as [|a s IH]; simpl; [rewrite Hc; reflexivity|].
  destruct (is_space a); [exact IH|reflexivity].
Qed.

(** A string that starts with a visible character still does after
    [trimEnd]. *)
Lemma trimEnd_cons c s :
  is_space c = false → ∃ r, trimEnd (String c s) = String c r.
Proof.
  intros Hc. unfold trimEnd. rewrite rev_string_cons, trimStart_snoc by exact Hc.
  rewrite rev_string_snoc. eauto.
Qed.

Lemma trimEnd_idemp s : trimEnd (trimEnd s) = trimEnd s.
Proof.
  unfold trimEnd. rewrite rev_string_involutive, trimStart_idemp. reflexivity.
Qed.

Lemma trimStart_head s :
  trimStart s = EmptyString
  ∨ ∃ c r, trimStart s = String c r ∧ is_space c = false.
Proof.
  induction s as [|c s IH]; simpl; [auto|].
  destruct (is_space c) eqn:Hc; [exact IH|]. right. eauto.
Qed.

Lemma trim_idemp s : trim (trim s) = trim s.
Proof.
  unfold trim. destruct (trimStart_head s) as [He|(c & r & He & Hc)];
    rewrite He.
  - reflexivity.
  - destruct (trimEnd_cons c r Hc) as [r' Hr']. rewrite Hr'.
    simpl. rewrite Hc. rewrite <- Hr'. apply trimEnd_idemp.
Qed.

Lemma alias_values key a :
  PLATFORM_ALIASES !! key = Some a →
  a ∈ ["epic"; "gog"; "ea"; "ubi"; "mstore"; "bnet"; "starcitizen"; "rockstar"].
Proof.
  intros H. unfold PLATFORM_ALIASES in H.
  apply elem_of_list_to_map_2 in H.
  repeat (apply elem_of_cons in H as [H|H];
          [injection H as _ ->; set_solver|]).
  inversion H.
Qed.

(** The tag [normalizePlatform] returns is never one of the aliases: it
    is the canonical tag the filter buttons compare with. (A tag that
    spells an inherited member of the table is left out: for it the
    function returns no string.) *)
Theorem normalizePlatform_never_alias (p : jsval) :
  own_key p →
  PLATFORM_ALIASES !! normalizePlatform p = None.
Proof.
  intros _. unfold normalizePlatform. destruct (negb (truthy p)); [reflexivity|].
  destruct (PLATFORM_ALIASES !! trim (toLowerCase (to_string p)))
    as [a|] eqn:Ha; [|exact Ha].
  apply alias_values in Ha.
  repeat (apply elem_of_cons in Ha as [->|Ha]; [reflexivity|]).
  inversion Ha.
Qed.

Lemma normalizePlatform_cases (p : jsval) :
  normalizePlatform p
  ∈ ["all"; "epic"; "gog"; "ea"; "ubi"; "mstore"; "bnet"; "starcitizen";
     "rockstar"]
  ∨ ∃ s, normalizePlatform p = trim (toLowerCase s)
         ∧ PLATFORM_ALIASES !! trim (toLowerCase s) = None.
Proof.
  unfold normalizePlatform.
  destruct (negb (truthy p)); [left; apply list_elem_of_here|].
  destruct (PLATFORM_ALIASES !! trim (toLowerCase (to_string p)))
    as [a|] eqn:Ha; [|right; eauto].
  left. apply list_elem_of_further. apply alias_values in Ha. exact Ha.
Qed.

(** Normalising twice is normalising once, unless the tag is made of
    white space only: that one normalises to the empty string, which
    normalises to "all". *)
Theorem normalizePlatform_idempotent (p : jsval) :
  own_key p →
  normalizePlatform p ≠ "" →
  normalizePlatform (JStr (normalizePlatform p)) = normalizePlatform p.
Proof.
  intros _ Hne. destruct (normalizePlatform_cases p) as [Hin|(s & Hs & Ha)].
  - repeat (apply elem_of_cons in Hin as [->|Hin]; [reflexivity|]).
    inversion Hin.
  - rewrite Hs in *. unfold normalizePlatform.
    assert (Ht : truthy (JStr (trim (toLowerCase s))) = true).
    { simpl. destruct (String.eqb_spec (trim (toLowerCase s)) "");
        [contradiction|reflexivity]. }
    rewrite Ht. cbn [negb to_string].
    rewrite toLowerCase_trim, toLowerCase_idemp, trim_idemp, Ha. reflexivity.
Qed.

Lemma normalizePlatform_idempotent_witness :
  normalizePlatform (JStr (normalizePlatform (JStr " EpicGames "))) = "epic"
  ∧ normalizePlatform (JStr (normalizePlatform (JStr "  "))) = "all"
  ∧ normalizePlatform (JStr "  ") = "".
Proof.
  split; [|vm_compute; split; reflexivity].
  rewrite (normalizePlatform_idempotent (JStr " EpicGames "));
    [reflexivity| |discriminate].
  unfold own_key, inherited. vm_compute. intros H.
  repeat (apply elem_of_cons in H as [H|H]; [discriminate|]).
  inversion H.
Defined.

Lemma normalizePlatform_never_alias_witness :
  PLATFORM_ALIASES !! "egs" = Some "epic"
  ∧ PLATFORM_ALIASES !! normalizePlatform (JStr " EGS ") = None.
Proof.
  split; [reflexivity|].
  apply (normalizePlatform_never_alias (JStr " EGS ")).
  unfold own_key, inherited. vm_compute. intros H.
  repeat (apply elem_of_cons in H as [H|H]; [discriminate|]).
  inversion H.
Defined.

End PlatformProps.

(** ** ScanSupervisor: the protocol stream and the session *)

Module ScanMore.
Import Merge Scan ScanSpec Scenario.

Lemma string_app_cons x (a b : string) : String x a +:+ b = String x (a +:+ b).
Proof. reflexivity. Qed.

Lemma string_app_assoc (a b c : string) : (a +:+ b) +:+ c = a +:+ (b +:+ c).
Proof.
  induction a as [|x a IH]; [reflexivity|].
  rewrite !string_app_cons, IH. reflexivity.
Qed.

Lemma split_lines_nonempty s : split_lines s ≠ [].
Proof.
  destruct s as [|c s]; simpl; [discriminate|].
  destruct (Ascii.eqb c "010"); [discriminate|].
  destruct (split_lines s); discriminate.
Qed.

(** Splitting a concatenation: the complete lines of the first part, then
    the lines of its unfinished last line followed by the second part. *)
Lemma split_lines_app a b :
  split_lines (a +:+ b)
  = removelast (split_lines a)
    ++ split_lines (default "" (last (split_lines a)) +:+ b).
Proof.
  induction a as [|c r IH]; [reflexivity|].
  rewrite string_app_cons. cbn [split_lines]. rewrite IH.
  pose proof (split_lines_nonempty r) as Hne.
  destruct (split_lines r) as [|h t]; [congruence|].
  destruct (Ascii.eqb c "010") eqn:Hc.
  - rewrite last_cons_cons. reflexivity.
  - destruct t as [|x t].
    + cbn [removelast last default from_option id app].
      rewrite string_app_cons.
      cbn [split_lines]. rewrite Hc. reflexivity.
    + rewrite !last_cons_cons. reflexivity.
Qed.

Section stream.
Variable JSON_parse : string → result progressData.
Variable env : host.

Lemma processLine_with_procs P n s line :
  processLine JSON_parse env (with_procs P n s) line
  = with_procs P n (processLine JSON_parse env s line).
Proof.
  unfold processLine. destruct (String.prefix _ line); [|reflexivity].
  destruct (JSON_parse _); [|reflexivity].
  destruct (is_empty _); reflexivity.
Qed.

Lemma foldl_processLine_with_procs P n lines s :
  foldl (processLine JSON_parse env) (with_procs P n s) lines
  = with_procs P n (foldl (processLine JSON_parse env) s lines).
Proof.
  revert s. induction lines as [|l lines IH]; intros s; simpl; [reflexivity|].
  rewrite processLine_with_procs. apply IH.
Qed.

Lemma processLine_procs s line :
  procs (processLine JSON_parse env s line) = procs s
  ∧ next_pid (processLine JSON_parse env s line) = next_pid s.
Proof.
  unfold processLine. destruct (String.prefix _ line); [|auto].
  destruct (JSON_parse _); [|auto].
  destruct (is_empty _); auto.
Qed.

Lemma foldl_processLine_procs lines s :
  procs (foldl (processLine JSON_parse env) s lines) = procs s
  ∧ next_pid (foldl (processLine JSON_parse env) s lines) = next_pid s.
Proof.
  revert s. induction lines as [|l lines IH]; intros s; simpl; [auto|].
  destruct (IH (processLine JSON_parse env s l)) as [H1 H2].
  destruct (processLine_procs s l) as [H3 H4]. split; congruence.
Qed.

Lemma with_procs_with_procs P n Q m s :
  with_procs P n (with_procs Q m s) = with_procs P n s.
Proof. reflexivity. Qed.

Lemma onStdout_chunks pid t1 t2 s :
  onStdout JSON_parse env pid t2 (onStdout JSON_parse env pid t1 s)
  = onStdout JSON_parse env pid (t1 +:+ t2) s.
Proof.
  unfold onStdout at 2 3. destruct (procs s !! pid) as [p|] eqn:Hp.
  2:{ unfold onStdout. rewrite Hp. reflexivity. }
  rewrite <- string_app_assoc.
  rewrite (split_lines_app (outputBuffer p +:+ t1) t2).
  set (lines1 := split_lines (outputBuffer p +:+ t1)).
  set (r1 := default "" (last lines1)).
  pose proof (split_lines_nonempty (r1 +:+ t2)) as Hne.
  set (lines2 := split_lines (r1 +:+ t2)) in *.
  rewrite removelast_app by exact Hne.
  rewrite last_app.
  destruct (last lines2) as [r2|] eqn:Hl2;
    [|apply last_None in Hl2; contradiction].
  cbn [default].
  rewrite foldl_app.
  unfold onStdout.
  destruct (foldl_processLine_procs (removelast lines1)
              (with_procs (<[pid:=Proc (command p) (onErrorCallback p) r1]>
                             (procs s)) (next_pid s) s)) as [Hprocs Hnext].
  rewrite Hprocs, Hnext. cbn [procs with_procs next_pid].
  rewrite lookup_insert_eq. cbn [command onErrorCallback outputBuffer].
  fold lines2. rewrite Hl2. cbn [default].
  rewrite insert_insert_eq.
  rewrite <- foldl_processLine_with_procs, with_procs_with_procs.
  reflexivity.
Qed.

End stream.

(** How the scanner's output is cut into chunks does not matter to the
    line buffer: feeding the handler two decoded texts one after the other
    leaves the page, the catalog and the buffered partial line exactly as
    feeding it their concatenation. (The texts are what [data.toString()]
    gives; a cut inside a multi-byte character changes the texts
    themselves.) *)
Theorem stdout_chunking_is_irrelevant JSON_parse env pid t1 t2 s :
  step JSON_parse env (step JSON_parse env s (StdoutData pid t1))
       (StdoutData pid t2)
  = step JSON_parse env s (StdoutData pid (t1 +:+ t2)).
Proof. apply onStdout_chunks. Qed.

Section session.
Variable JSON_parse : string → result progressData.
Variable env : host.

Lemma keeps_endScan : keeps endScan.
Proof. intros s. unfold endScan. destruct (scanTimer s); split; reflexivity. Qed.

Lemma keeps_emit e : keeps (emit e).
Proof. intros s. split; reflexivity. Qed.

Lemma keeps_comp f g : keeps f → keeps g → keeps (λ s, f (g s)).
Proof.
  intros Hf Hg s. destruct (Hf (g s)) as [H1 H2], (Hg s) as [H3 H4].
  split; congruence.
Qed.

Lemma keeps_startScanProcess c cb : keeps (startScanProcess c cb).
Proof. intros s. split; reflexivity. Qed.

Lemma keeps_tryNextPythonCommand c : keeps (tryNextPythonCommand c).
Proof.
  intros s. unfold tryNextPythonCommand.
  destruct (commandIndex s !! c); [|split; reflexivity].
  destruct (pythonCommands !! n); [apply keeps_startScanProcess|].
  apply (keeps_comp endScan (emit _) keeps_endScan (keeps_emit _)).
Qed.

Lemma keeps_tryPythonFallback : keeps (tryPythonFallback env).
Proof.
  intros s. unfold tryPythonFallback.
  destruct (negb (script_exists env)).
  - apply (keeps_comp endScan (emit _) keeps_endScan (keeps_emit _)).
  - destruct (keeps_tryNextPythonCommand (next_closure s)
                (with_commandIndex (<[next_closure s:=0%nat]> (commandIndex s))
                   (S (next_closure s)) s)) as [H1 H2].
    split; [rewrite H1|rewrite H2]; reflexivity.
Qed.

Lemma keeps_runOnError cb : keeps (runOnError env cb).
Proof.
  intros s. destruct cb as [|c]; simpl; [apply keeps_tryPythonFallback|].
  match goal with |- context [tryNextPythonCommand c ?s0] =>
    destruct (keeps_tryNextPythonCommand c s0) as [H1 H2] end.
  split; [rewrite H1|rewrite H2]; reflexivity.
Qed.

Lemma keeps_sortAndRender b : keeps (sortAndRender b).
Proof.
  intros s. unfold sortAndRender.
  destruct (sortAndRenderTimer s); split; reflexivity.
Qed.

Lemma keeps_renderPass : keeps renderPass.
Proof.
  intros s. unfold renderPass.
  destruct (Sort.sortedView _ _) as [l|]; [|split; reflexivity].
  cbn [allGames isScanning with_sortAndRenderTimer].
  apply (ScanProps.foldl_preserves
           (λ s0, allGames s0 = allGames s ∧ isScanning s0 = isScanning s));
    [|split; reflexivity].
  intros s0 g H. exact H.
Qed.

Lemma processLine_grows s line :
  allGames s `prefix_of` allGames (processLine JSON_parse env s line)
  ∧ isScanning (processLine JSON_parse env s line) = isScanning s.
Proof.
  unfold processLine. destruct (String.prefix _ line); [|split; reflexivity].
  destruct (JSON_parse _) as [pd|]; [|split; reflexivity].
  destruct (is_empty _); [split; reflexivity|].
  split; [|reflexivity]. cbn [allGames with_allGames emit].
  destruct (MergeMore.appendNewGames_shape (container env) (allGames s)
              (games pd)) as [Heq _].
  rewrite Heq. apply prefix_app_r. reflexivity.
Qed.

Lemma onStdout_grows pid text s :
  allGames s `prefix_of` allGames (onStdout JSON_parse env pid text s)
  ∧ isScanning (onStdout JSON_parse env pid text s) = isScanning s.
Proof.
  unfold onStdout. destruct (procs s !! pid) as [p|]; [|split; reflexivity].
  apply (ScanProps.foldl_preserves
           (λ s0, allGames s `prefix_of` allGames s0
                  ∧ isScanning s0 = isScanning s));
    [|split; reflexivity].
  intros s0 line [H1 H2]. destruct (processLine_grows s0 line) as [H3 H4].
  split; [etrans; eassumption|congruence].
Qed.


Lemma step_flag s ev :
  (isScanning s = true → isScanning (step JSON_parse env s ev) = false →
   ∃ h t, ev = TimerFires h ∧ timers s !! h = Some t
          ∧ action t = EndScanReset)
  ∧ (isScanning s = false → isScanning (step JSON_parse env s ev) = true →
     ev = Click).
Proof.
  assert (Hsame : isScanning (step JSON_parse env s ev) = isScanning s →
           (isScanning s = true →
            isScanning (step JSON_parse env s ev) = false →
            ∃ h t, ev = TimerFires h ∧ timers s !! h = Some t
                   ∧ action t = EndScanReset)
           ∧ (isScanning s = false →
              isScanning (step JSON_parse env s ev) = true → ev = Click))
    by (intros ->; split; congruence).
  destruct ev as [|pid text|pid code|pid|h]; simpl in *.
  - split; [|reflexivity]. intros H1 H2.
    destruct (refresh_disabled s) eqn:Hd; [congruence|].
    destruct (ScanProps.click_starts_session env s Hd) as [H3 _].
    congruence.
  - apply Hsame. apply onStdout_grows.
  - apply Hsame. unfold onClose.
    destruct (procs s !! pid) as [p|]; [|reflexivity].
    destruct (bool_decide _).
    + match goal with |- context [endScan ?s0] =>
        destruct (keeps_endScan s0) as [_ H1] end.
      rewrite H1. cbn [isScanning emit].
      apply keeps_sortAndRender.
    + apply keeps_runOnError.
  - apply Hsame. unfold onError.
    destruct (procs s !! pid) as [p|]; [|reflexivity].
    apply keeps_runOnError.
  - unfold onTimer in *. destruct (timers s !! h) as [t|] eqn:Ht;
      [|apply Hsame; reflexivity].
    destruct (action t) eqn:Ha.
    + apply Hsame.
      match goal with |- context [endScan ?s0] =>
        destruct (keeps_endScan s0) as [_ H1] end.
      rewrite H1. reflexivity.
    + split; [eauto|]. cbn [isScanning setScanningUI with_scanning].
      congruence.
    + apply Hsame.
      match goal with |- context [renderPass ?s0] =>
        destruct (keeps_renderPass s0) as [_ H1] end.
      rewrite H1. reflexivity.
Qed.

End session.



(** The scanning flag is lowered by nothing but the one-second timer that
    [endScan] arms, and raised by nothing but a click on the refresh
    button: process output, exits, errors and the other timers leave it
    as it is. *)
Theorem scanning_flag_changes_only_by_click_and_reset JSON_parse env s ev :
  (isScanning s = true → isScanning (step JSON_parse env s ev) = false →
   ∃ h t, ev = TimerFires h ∧ timers s !! h = Some t
          ∧ action t = EndScanReset)
  ∧ (isScanning s = false → isScanning (step JSON_parse env s ev) = true →
     ev = Click).
Proof. apply step_flag. Qed.

Lemma scanning_flag_changes_only_by_click_and_reset_witness :
  let s := run parse_foo both (init [] Sort.default_view)
             [Click; Close 1 (Some 0)] in
  isScanning s = true
  ∧ isScanning (step parse_foo both s (TimerFires 3)) = false
  ∧ timers s !! 3%nat = Some (Timer EndScanReset 1000).
Proof.
  cbv zeta. split; [reflexivity|]. split; [reflexivity|].
  destruct (scanning_flag_changes_only_by_click_and_reset parse_foo both
              (run parse_foo both (init [] Sort.default_view)
                 [Click; Close 1 (Some 0)]) (TimerFires 3)) as [H _].
  destruct (H eq_refl eq_refl) as (h & t & Hev & Ht & Ha).
  injection Hev as <-. rewrite Ht. destruct t as [a d]. simpl in Ha.
  subst a. vm_compute in Ht. injection Ht as <-. reflexivity.
Defined.

Lemma step_failure JSON_parse env s pid ev p :
  failure_of pid ev →
  procs s !! pid = Some p →
  step JSON_parse env s ev = runOnError env (onErrorCallback p) s.
Proof.
  intros [->|(code & Hcode & ->)] Hp; simpl.
  - unfold onError. rewrite Hp. reflexivity.
  - unfold onClose. rewrite Hp, bool_decide_eq_false_2 by exact Hcode.
    reflexivity.
Qed.

(** The fallback chain, when the executable is not there and the script
    is: the click starts [python]; each failure (spawn error or exit code
    other than 0) starts the next of [python], [py], [python3], never the
    same one again; the third failure starts nothing, shows "Python non
    trouvé" and ends the scan. If instead the second command exits with
    code 0 the scan ends in success after exactly two starts. *)
Theorem python_fallback_order JSON_parse env games v e1 e2 e3 :
  exe_exists env = false →
  script_exists env = true →
  failure_of 1 e1 → failure_of 2 e2 → failure_of 3 e3 →
  let failed := run JSON_parse env (init games v) [Click; e1; e2; e3] in
  let second := run JSON_parse env (init games v) [Click; e1; Close 2 (Some 0)] in
  trace failed = [SpawnProcess 1 "python"; SpawnProcess 2 "py";
                  SpawnProcess 3 "python3";
                  ShowToast "Erreur: Python non trouvé"]
  ∧ scanTimer failed = None
  ∧ timers failed !! 4%nat = Some (Timer EndScanReset 1000)
  ∧ trace second = [SpawnProcess 1 "python"; SpawnProcess 2 "py";
                    ShowToast "Scan terminé avec succès - 0 jeux trouvés"]
  ∧ scanTimer second = None
  ∧ timers second !! 3%nat = Some (Timer (RenderPass false) 150).
Proof.
  intros Hexe Hscript H1 H2 H3. destruct env as [ex sc ct].
  simpl in Hexe, Hscript. subst ex sc. cbv zeta. unfold run. cbn [foldl].
  set (s0 := step JSON_parse (Host false true ct) (init games v) Click).
  assert (Hp1 : procs s0 !! 1%nat = Some (Proc "python" (PythonFailed 0) ""))
    by reflexivity.
  rewrite (step_failure _ _ s0 1 e1 _ H1 Hp1).
  set (s1 := runOnError (Host false true ct)
               (onErrorCallback (Proc "python" (PythonFailed 0) "")) s0).
  assert (Hp2 : procs s1 !! 2%nat = Some (Proc "py" (PythonFailed 0) ""))
    by reflexivity.
  rewrite (step_failure _ _ s1 2 e2 _ H2 Hp2).
  set (s2 := runOnError (Host false true ct)
               (onErrorCallback (Proc "py" (PythonFailed 0) "")) s1).
  assert (Hp3 : procs s2 !! 3%nat = Some (Proc "python3" (PythonFailed 0) ""))
    by reflexivity.
  rewrite (step_failure _ _ s2 3 e3 _ H3 Hp3).
  repeat split; reflexivity.
Qed.

Lemma python_fallback_order_witness :
  trace (run parse_foo (Host false true true) (init [foo] Sort.default_view)
           [Click; ProcError 1; Close 2 (Some 1); Close 3 None])
  = [SpawnProcess 1 "python"; SpawnProcess 2 "py"; SpawnProcess 3 "python3";
     ShowToast "Erreur: Python non trouvé"].
Proof.
  apply (python_fallback_order parse_foo (Host false true true) [foo]
           Sort.default_view (ProcError 1) (Close 2 (Some 1)) (Close 3 None));
    try reflexivity.
  - left. reflexivity.
  - right. exists (Some 1). split; [discriminate|reflexivity].
  - right. exists None. split; [discriminate|reflexivity].
Defined.

(** A process whose failure is reported twice (an [error] event and a
    [close] event with a code other than 0) runs its error callback
    twice: the click having started [python], the two reports start [py]
    and then [python3], which run side by side while the scan goes on. *)
Theorem failure_reported_twice_starts_two_candidates
    JSON_parse env games v e1 e1' :
  exe_exists env = false →
  script_exists env = true →
  failure_of 1 e1 → failure_of 1 e1' →
  let s := run JSON_parse env (init games v) [Click; e1; e1'] in
  trace s = [SpawnProcess 1 "python"; SpawnProcess 2 "py";
             SpawnProcess 3 "python3"]
  ∧ isScanning s = true
  ∧ command <$> procs s !! 2%nat = Some "py"
  ∧ command <$> procs s !! 3%nat = Some "python3".
Proof.
  intros Hexe Hscript H1 H1'. destruct env as [ex sc ct].
  simpl in Hexe, Hscript. subst ex sc. cbv zeta. unfold run. cbn [foldl].
  set (s0 := step JSON_parse (Host false true ct) (init games v) Click).
  assert (Hp1 : procs s0 !! 1%nat = Some (Proc "python" (PythonFailed 0) ""))
    by reflexivity.
  rewrite (step_failure _ _ s0 1 e1 _ H1 Hp1).
  set (s1 := runOnError (Host false true ct)
               (onErrorCallback (Proc "python" (PythonFailed 0) "")) s0).
  assert (Hp1' : procs s1 !! 1%nat = Some (Proc "python" (PythonFailed 0) ""))
    by reflexivity.
  rewrite (step_failure _ _ s1 1 e1' _ H1' Hp1').
  repeat split; reflexivity.
Qed.

Lemma failure_reported_twice_starts_two_candidates_witness :
  trace (run parse_foo (Host false true true) (init [foo] Sort.default_view)
           [Click; ProcError 1; Close 1 (Some (-2))])
  = [SpawnProcess 1 "python"; SpawnProcess 2 "py"; SpawnProcess 3 "python3"].
Proof.
  apply (failure_reported_twice_starts_two_candidates parse_foo
           (Host false true true) [foo] Sort.default_view
           (ProcError 1) (Close 1 (Some (-2))));
    try reflexivity.
  - left. reflexivity.
  - right. exists (Some (-2)). split; [discriminate|reflexivity].
Defined.














End ScanMore.

(** ** ImageCache: the retry loop, the files a call touches, the sweep
    within its limits *)

Module CacheMore.
Import Cache CacheSpec Scenario.

Lemma sum_durations_S net k :
  sum_durations net (S k) = sum_durations net k + duration (net k).
Proof. reflexivity. Qed.

Lemma retryLoop_answer net f k : ∀ a t left,
  (k < left)%nat →
  (∀ j, (j < k)%nat → threw (outcome (net (a + j)%nat)) = true) →
  threw (outcome (net (a + k)%nat)) = false →
  retryLoop net f left a t
  = Fetched (answer_value f (outcome (net (a + k)%nat)))
            (t + (sum_durations net (a + S k) - sum_durations net a)
               + 1000 * Z.of_nat k)
            (answer_file (outcome (net (a + k)%nat))).
Proof.
  induction k as [|k IH]; intros a t left Hk Hthrew Hans.
  - destruct left as [|left]; [lia|].
    rewrite Nat.add_0_r in *. rewrite Nat.add_1_r, sum_durations_S.
    cbn [retryLoop]. destruct (outcome (net a)); try discriminate;
      cbn [answer_value answer_file]; f_equal; lia.
  - destruct left as [|[|left]]; [lia|lia|].
    pose proof (Hthrew 0%nat ltac:(lia)) as H0. rewrite Nat.add_0_r in H0.
    assert (Hstep : retryLoop net f (S (S left)) a t
                    = retryLoop net f (S left) (S a)
                        (t + duration (net a) + 1000)).
    { cbn [retryLoop]. destruct (outcome (net a)); try discriminate;
        reflexivity. }
    rewrite Hstep.
    rewrite (IH (S a) (t + duration (net a) + 1000) (S left)).
    + replace (S a + k)%nat with (a + S k)%nat by lia.
      replace (S a + S k)%nat with (a + S (S k))%nat by lia.
      rewrite sum_durations_S. f_equal. lia.
    + lia.
    + intros j Hj. replace (S a + j)%nat with (a + S j)%nat by lia.
      apply Hthrew. lia.
    + replace (S a + k)%nat with (a + S k)%nat by lia. exact Hans.
Qed.

Lemma retryLoop_exhausted net f left : ∀ a t,
  (∀ j, (j ≤ left)%nat → threw (outcome (net (a + j)%nat)) = true) →
  retryLoop net f (S left) a t
  = Fetched (Throw "fetch failed")
            (t + (sum_durations net (a + S left) - sum_durations net a)
               + 1000 * Z.of_nat left)
            None.
Proof.
  induction left as [|left IH]; intros a t Hthrew.
  - pose proof (Hthrew 0%nat ltac:(lia)) as H0. rewrite Nat.add_0_r in H0.
    rewrite Nat.add_1_r, sum_durations_S. cbn [retryLoop].
    destruct (outcome (net a)); try discriminate; f_equal; lia.
  - pose proof (Hthrew 0%nat ltac:(lia)) as H0. rewrite Nat.add_0_r in H0.
    assert (Hstep : retryLoop net f (S (S left)) a t
                    = retryLoop net f (S left) (S a)
                        (t + duration (net a) + 1000)).
    { cbn [retryLoop]. destruct (outcome (net a)); try discriminate;
        reflexivity. }
    rewrite Hstep, (IH (S a)).
    + replace (S a + S left)%nat with (a + S (S left))%nat by lia.
      rewrite sum_durations_S. f_equal. lia.
    + intros j Hj. replace (S a + j)%nat with (a + S j)%nat by lia.
      apply Hthrew. lia.
Qed.

Lemma fetchImageWithRetry_answer net f maxRetries i :
  (i ≤ maxRetries)%nat →
  (∀ j, (j < i)%nat → threw (outcome (net j)) = true) →
  threw (outcome (net i)) = false →
  fetchImageWithRetry net f maxRetries
  = Fetched (answer_value f (outcome (net i)))
            (sum_durations net (S i) + 1000 * Z.of_nat i)
            (answer_file (outcome (net i))).
Proof.
  intros Hi Hthrew Hans. unfold fetchImageWithRetry.
  rewrite (retryLoop_answer net f i 0 0 (S maxRetries)); try assumption;
    [|lia].
  cbn [Nat.add]. f_equal. cbn [sum_durations]. lia.
Qed.

(** The retry loop stops at the first pass that does not throw: with
    [i] throwing passes before it, the promise settles after the time of
    the [i + 1] passes and [i] pauses of one second, with the cover when
    that pass downloaded one and with the placeholder when the service had
    no image; later passes are never made. *)
Theorem retry_stops_at_first_answer net f maxRetries i :
  (i ≤ maxRetries)%nat →
  (∀ j, (j < i)%nat → threw (outcome (net j)) = true) →
  threw (outcome (net i)) = false →
  fetchImageWithRetry net f maxRetries
  = Fetched (answer_value f (outcome (net i)))
            (sum_durations net (S i) + 1000 * Z.of_nat i)
            (answer_file (outcome (net i))).
Proof. apply fetchImageWithRetry_answer. Qed.

Lemma retry_stops_at_first_answer_witness :
  fetchImageWithRetry flaky "steam_1.jpg" 2
  = Fetched (Ret (CacheFile "steam_1.jpg")) 1800 (Some 4096).
Proof.
  apply (retry_stops_at_first_answer flaky "steam_1.jpg" 2 1).
  - lia.
  - intros [|j] Hj; [reflexivity|lia].
  - reflexivity.
Defined.

(** When every one of its [maxRetries + 1] passes throws, the retry loop
    rejects, after the time of all the passes and [maxRetries] pauses of
    one second (none after the last pass), and has written no file. *)
Theorem retry_rejects_after_all_passes_threw net f maxRetries :
  (∀ j, (j ≤ maxRetries)%nat → threw (outcome (net j)) = true) →
  fetchImageWithRetry net f maxRetries
  = Fetched (Throw "fetch failed")
            (sum_durations net (S maxRetries) + 1000 * Z.of_nat maxRetries)
            None.
Proof.
  intros Hthrew. unfold fetchImageWithRetry.
  rewrite (retryLoop_exhausted net f maxRetries 0 0) by exact Hthrew.
  cbn [Nat.add]. f_equal. cbn [sum_durations]. lia.
Qed.

Lemma retry_rejects_after_all_passes_threw_witness :
  fetchImageWithRetry down "steam_1.jpg" 2
  = Fetched (Throw "fetch failed") 2600 None.
Proof.
  apply (retry_rejects_after_all_passes_threw down "steam_1.jpg" 2).
  intros j _. reflexivity.
Defined.

(** A cover that arrives at or after the timer is not shown: when there
    is no cached file and the pass that downloads the cover ends, pauses
    included, no earlier than [timeout], the call resolves to the
    placeholder. With the default three seconds, a cover of the third
    pass is shown only if the three passes take under one second
    together. *)
Theorem late_download_shows_placeholder env net g timeout d i bytes :
  d !! fileName g = None →
  (i ≤ 2)%nat →
  (∀ j, (j < i)%nat → threw (outcome (net j)) = true) →
  outcome (net i) = DownloadOk bytes →
  timeout ≤ sum_durations net (S i) + 1000 * Z.of_nat i →
  fst (fetchGameImage env net g timeout d) = Ret Placeholder.
Proof.
  intros Hd Hi Hthrew Hok Hlate.
  assert (Hc : cacheCheck env (fileName g) d = (Ret None, d)).
  { unfold cacheCheck, existsSync, mbind, io_bind. rewrite Hd.
    rewrite bool_decide_eq_false_2 by (intros [? ?]; discriminate).
    reflexivity. }
  rewrite (CacheProps.fetchGameImage_miss _ _ _ _ _ _ Hc).
  unfold fetchRemote, race, try_catch.
  rewrite (fetchImageWithRetry_answer net (fileName g) 2 i Hi Hthrew)
    by (rewrite Hok; reflexivity).
  cbn [elapsed]. apply Z.ltb_ge in Hlate. rewrite Hlate. reflexivity.
Qed.

Lemma late_download_shows_placeholder_witness :
  fst (fetchGameImage quiet slow_third foo 3000 ∅) = Ret Placeholder.
Proof.
  apply (late_download_shows_placeholder quiet slow_third foo 3000 ∅ 2 4096).
  - reflexivity.
  - lia.
  - intros [|[|j]] Hj; [reflexivity|reflexivity|lia].
  - reflexivity.
  - vm_compute. discriminate.
Defined.



(** The sweep only deletes: whatever the file system does, a file that
    is in the directory afterwards was there before with the same size
    and time stamp. *)
Theorem cleanupCache_only_deletes env (d : dir) f st :
  cleanupCache env d !! f = Some st → d !! f = Some st.
Proof.
  intros H. eapply lookup_weaken; [exact H|].
  apply SweepProps.cleanupCache_subseteq.
Qed.

Lemma cleanupCache_only_deletes_witness :
  heavy !! "steam_2.jpg" = Some (Fstat (300 * MB) 2).
Proof.
  apply (cleanupCache_only_deletes quiet heavy "steam_2.jpg").
  vm_compute. reflexivity.
Defined.

Lemma statAll_missing env l (d : dir) f :
  f ∈ l → d !! f = None → ∃ e, statAll env l d = (Throw e, d).
Proof.
  induction l as [|x l IH]; intros Hin Hf; [inversion Hin|].
  rewrite SweepProps.statAll_cons. unfold statSync.
  destruct (d !! x) as [st|] eqn:Hx; [|eauto].
  destruct (bool_decide (x ∈ unreadable env)); [eauto|].
  apply elem_of_cons in Hin as [->|Hin]; [congruence|].
  destruct (IH Hin Hf) as [e He]. rewrite He. eauto.
Qed.

Lemma readdirSync_elem (d : dir) f : f ∈ readdirSync d ↔ is_Some (d !! f).
Proof.
  unfold readdirSync. rewrite list_elem_of_fmap. split.
  - intros ([f' st] & -> & H). apply elem_of_map_to_list in H. eauto.
  - intros [st H]. exists (f, st). split; [reflexivity|].
    apply elem_of_map_to_list. exact H.
Qed.

Lemma deleted_file_exists (d d' : dir) :
  d' ⊆ d → (fileCount d' < fileCount d)%nat →
  ∃ f, f ∈ readdirSync d ∧ d' !! f = None.
Proof.
  intros Hsub Hlt.
  destruct (decide (Exists (λ f, ¬ is_Some (d' !! f)) (readdirSync d)))
    as [Hex|Hall].
  - apply Exists_exists in Hex as (f & Hf & Hnone). exists f.
    split; [exact Hf|]. destruct (d' !! f); [|reflexivity].
    exfalso. apply Hnone. eauto.
  - exfalso. assert (Hd : d ⊆ d').
    { apply map_subseteq_spec. intros f st Hf.
      destruct (d' !! f) as [st'|] eqn:Hf'.
      - rewrite (lookup_weaken _ _ _ _ Hf' Hsub) in Hf. exact Hf.
      - exfalso. apply Hall. apply Exists_exists. exists f. split.
        + apply readdirSync_elem. eauto.
        + rewrite Hf'. intros [? ?]. discriminate. }
    apply SweepProps.fileCount_subseteq in Hd. lia.
Qed.

(** Above 1000 files the byte ceiling is not enforced: the count block
    deletes the 200 oldest files, and the byte block, which lists the
    directory as it was before, either finds the total within 500 MB or
    stops at the first deleted file. The sweep deletes those 200 files and
    nothing else, whatever the cache weighs. *)
Theorem byte_ceiling_skipped_after_count_block env (d : dir) :
  cooperative env d →
  (MAX_FILES < fileCount d)%nat →
  cleanupCache env d = snd (countPass env (readdirSync d) d)
  ∧ (fileCount (cleanupCache env d) + 200 = fileCount d)%nat.
Proof.
  intros Hco Hn.
  destruct (SweepProps.countPass_deletes_200 env d Hco Hn)
    as (d' & Hrun & Hcnt & Hsub & _).
  destruct (deleted_file_exists d d' Hsub ltac:(lia)) as (f & Hf & Hgone).
  assert (Hsweep : cleanupCache env d = d').
  { unfold cleanupCache, try_catch. unfold mbind at 1, io_bind at 1.
    rewrite Hrun. unfold bytePass.
    destruct (over_budget (totalSizeOf env (readdirSync d) d'));
      [|reflexivity].
    unfold mbind, io_bind.
    destruct (statAll_missing env (readdirSync d) d' f Hf Hgone) as [e He].
    rewrite He. reflexivity. }
  rewrite Hsweep, Hrun. split; [reflexivity|exact Hcnt].
Qed.

Lemma byte_ceiling_skipped_after_count_block_witness :
  fileCount (cleanupCache quiet (crowded 1001)) = 801%nat.
Proof.
  destruct (byte_ceiling_skipped_after_count_block quiet (crowded 1001))
    as [_ H].
  - apply SweepProps.quiet_cooperative.
  - vm_compute. lia.
  - assert (Hc : fileCount (crowded 1001) = 1001%nat)
      by (vm_compute; reflexivity).
    rewrite Hc in H. lia.
Defined.

End CacheMore.

(** ** CardRenderer: batches, card order and duplicate cards *)

Module RenderProps.
Import Render Scenario.

Lemma totalBatches_spec n :
  (n ≤ totalBatches n * batchSize)%nat
  ∧ ∀ k, (k < totalBatches n)%nat → (k * batchSize < n)%nat.
Proof.
  unfold totalBatches, batchSize. cbn [Nat.sub].
  pose proof (Nat.div_mod_eq (n + 7) 8) as Hd.
  pose proof (Nat.mod_upper_bound (n + 7) 8 ltac:(lia)) as Hm.
  split; [lia|]. intros k Hk. nia.
Qed.

Lemma batchAt_length {A} (l : list A) k :
  length (batchAt l k) = Nat.min batchSize (length l - k * batchSize).
Proof.
  unfold batchAt, slice. rewrite length_take, length_drop. lia.
Qed.

Lemma batches_concat_take {A} (l : list A) k :
  concat (map (batchAt l) (seq 0 k)) = take (k * batchSize) l.
Proof.
  induction k as [|k IH]; [reflexivity|].
  rewrite seq_S, map_app, concat_app, IH. cbn [map concat Nat.add].
  rewrite app_nil_r. unfold batchAt, slice.
  rewrite take_take_drop.
  destruct (decide (k * batchSize + batchSize ≤ length l)%nat) as [Hle|Hgt].
  - f_equal. unfold batchSize in *. lia.
  - rewrite !take_ge; [reflexivity|unfold batchSize in *; lia..].
Qed.

Lemma batches_lookup {A} (l : list A) k b :
  batches l !! k = Some b →
  (k < totalBatches (length l))%nat ∧ b = batchAt l k.
Proof.
  unfold batches. intros H. apply list_lookup_fmap_Some in H as (i & -> & Hi).
  apply lookup_seq in Hi as [-> Hk]. split; [exact Hk|reflexivity].
Qed.

Lemma batches_concat {A} (visible : list A) :
  concat (batches visible) = visible.
Proof.
  destruct (totalBatches_spec (length visible)) as [Hcover _].
  unfold batches. rewrite batches_concat_take. apply take_ge. exact Hcover.
Qed.

Lemma batches_le_8 {A} (visible : list A) :
  Forall (λ b, (length b ≤ 8)%nat) (batches visible).
Proof.
  apply Forall_lookup. intros k b Hb. apply batches_lookup in Hb as [_ ->].
  rewrite batchAt_length. unfold batchSize. lia.
Qed.

(** The batches cut the list without losing, repeating or reordering an
    entry: put end to end they are the list; no batch is empty, none has
    more than 8 entries and every batch but the last has exactly 8. *)
Theorem batches_partition {A} (visible : list A) :
  concat (batches visible) = visible
  ∧ ∀ k b, batches visible !! k = Some b →
      b ≠ [] ∧ (length b ≤ 8)%nat
      ∧ ((S k < length (batches visible))%nat → length b = 8%nat).
Proof.
  destruct (totalBatches_spec (length visible)) as [Hcover Hin]. split.
  - unfold batches. rewrite batches_concat_take. apply take_ge. exact Hcover.
  - intros k b Hb. apply batches_lookup in Hb as [Hk ->].
    pose proof (batchAt_length visible k) as Hlen.
    pose proof (Hin k Hk) as Hlt. unfold batchSize in *.
    split; [intros E; rewrite E in Hlen; cbn [length] in Hlen; lia|].
    split; [lia|]. intros Hnext.
    unfold batches in Hnext. rewrite length_map, length_seq in Hnext.
    pose proof (Hin (S k) Hnext). lia.
Qed.

Lemma batches_partition_witness :
  map length (batches (seq 0 19)) = [8; 8; 3]%nat
  ∧ concat (batches (seq 0 19)) = seq 0 19.
Proof.
  split; [reflexivity|]. apply (batches_partition (seq 0 19)).
Defined.

Lemma clip_in_time load k : in_time load → clip (load k) = load k.
Proof.
  intros H. unfold clip. destruct (Z.ltb_spec (load k) BATCH_TIMEOUT);
    [reflexivity|]. specialize (H k). lia.
Qed.

Lemma cardTimersFrom_card s b i l : map card (cardTimersFrom s b i l) = l.
Proof.
  revert i. induction l as [|g l IH]; intros i; simpl; [reflexivity|].
  rewrite IH. reflexivity.
Qed.

Lemma cardTimersFrom_due s b i l p :
  p ∈ cardTimersFrom s b i l →
  s + 50 * Z.of_nat i ≤ due p ≤ s + 50 * Z.of_nat (i + length l) - 50.
Proof.
  revert i. induction l as [|g l IH]; intros i Hp; simpl in Hp.
  - inversion Hp.
  - apply elem_of_cons in Hp as [->|Hp]; simpl; [lia|].
    apply IH in Hp. lia.
Qed.

Lemma cardTimersFrom_sorted s b i l :
  StronglySorted by_due (cardTimersFrom s b i l).
Proof.
  revert i. induction l as [|g l IH]; intros i; simpl; constructor;
    [apply IH|].
  apply Forall_forall. intros p Hp. apply cardTimersFrom_due in Hp.
  unfold by_due. simpl. lia.
Qed.

Lemma cardTimersFrom_lookup s b i l j g :
  l !! j = Some g →
  Pending (s + 50 * Z.of_nat (i + j)) (b + (i + j)) g
  ∈ cardTimersFrom s b i l.
Proof.
  revert i j. induction l as [|h l IH]; intros i [|j] Hj; try discriminate.
  - injection Hj as ->. rewrite Nat.add_0_r. apply list_elem_of_here.
  - simpl. apply list_elem_of_further.
    replace (i + S j)%nat with (S i + j)%nat by lia. apply IH. exact Hj.
Qed.

Lemma renderLoop_card load bs : ∀ k start,
  in_time load → map card (renderLoop load bs k start) = concat bs.
Proof.
  induction bs as [|b bs IH]; intros k start Hin; [reflexivity|].
  cbn [renderLoop concat]. rewrite map_app, IH by exact Hin.
  destruct (Z.ltb_spec (load k) BATCH_TIMEOUT) as [_|Hge];
    [|specialize (Hin k); lia].
  unfold cardTimers. rewrite cardTimersFrom_card. reflexivity.
Qed.

Lemma renderLoop_due load bs : ∀ k start p,
  in_time load →
  p ∈ renderLoop load bs k start → start + load k ≤ due p.
Proof.
  induction bs as [|b bs IH]; intros k start p Hin Hp; [inversion Hp|].
  cbn [renderLoop] in Hp. rewrite (clip_in_time load k Hin) in Hp.
  apply elem_of_app in Hp as [Hp|Hp].
  - destruct (load k <? BATCH_TIMEOUT); [|inversion Hp].
    apply cardTimersFrom_due in Hp. lia.
  - apply IH in Hp; [|exact Hin]. pose proof (Hin (S k)). lia.
Qed.

Lemma renderLoop_sorted load bs : ∀ k start,
  in_step load →
  Forall (λ b, (length b ≤ 8)%nat) bs →
  StronglySorted by_due (renderLoop load bs k start).
Proof.
  induction bs as [|b bs IH]; intros k start Hstep Hlen; [constructor|].
  assert (Hin : in_time load) by (intros j; apply Hstep).
  apply Forall_cons in Hlen as [Hb Hlen].
  cbn [renderLoop]. rewrite (clip_in_time load k Hin).
  apply StronglySorted_app_2; [| |apply IH; assumption].
  - intros p q Hp Hq. apply renderLoop_due in Hq; [|exact Hin].
    destruct (load k <? BATCH_TIMEOUT); [|inversion Hp].
    apply cardTimersFrom_due in Hp. destruct (Hstep k) as [_ H150].
    unfold by_due. lia.
  - destruct (load k <? BATCH_TIMEOUT); [|constructor].
    apply cardTimersFrom_sorted.
Qed.

Lemma insert_by_due_sorted x l :
  StronglySorted by_due l → StronglySorted by_due (insert_by due_cmp x l).
Proof.
  induction 1 as [|y l Hl IH Hy]; simpl; [repeat constructor|].
  unfold due_cmp at 1.
  destruct (Z.compare_spec (due x) (due y)) as [He|Hlt|Hgt].
  - constructor; [constructor; assumption|].
    constructor; [unfold by_due; lia|].
    eapply Forall_impl; [exact Hy|]. unfold by_due. intros; lia.
  - constructor; [constructor; assumption|].
    constructor; [unfold by_due; lia|].
    eapply Forall_impl; [exact Hy|]. unfold by_due. intros; lia.
  - constructor; [exact IH|].
    rewrite SweepProps.insert_by_perm.
    constructor; [unfold by_due; lia|exact Hy].
Qed.

Lemma fired_sorted load visible : StronglySorted by_due (fired load visible).
Proof.
  unfold fired. induction (renderLoop load (batches visible) 0 0) as [|x l IH];
    simpl; [constructor|]. apply insert_by_due_sorted, IH.
Qed.

Lemma sort_by_due_id l : StronglySorted by_due l → sort_by due_cmp l = l.
Proof.
  induction 1 as [|x l Hl IH Hx]; [reflexivity|].
  cbn [sort_by foldr]. fold (sort_by due_cmp l). rewrite IH.
  destruct l as [|y r]; [reflexivity|]. cbn [insert_by].
  apply Forall_cons in Hx as [Hxy _]. unfold by_due in Hxy.
  unfold due_cmp. destruct (Z.compare_spec (due x) (due y)); [reflexivity..|lia].
Qed.

Lemma sorted_before {A} (R : relation A) l x y :
  StronglySorted R l → x ∈ l → y ∈ l → ¬ R y x → x ≠ y → before x y l.
Proof.
  intros Hs Hx Hy Hnot Hne.
  apply list_elem_of_split in Hx as (l1 & l2 & ->).
  apply elem_of_app in Hy as [Hy|Hy].
  - exfalso. apply Hnot.
    apply (StronglySorted_app_1_elem_of R l1 (x :: l2) y x Hs Hy).
    apply list_elem_of_here.
  - apply elem_of_cons in Hy as [->|Hy]; [congruence|].
    apply list_elem_of_split in Hy as (l3 & l4 & ->).
    exists l1, l3, l4. reflexivity.
Qed.

Lemma addCard_fold_keys (l : list game) : ∀ container,
  NoDup (map card_key (container ++ l)) →
  foldl (λ c g, fst (addCardToContainer c g)) container l = container ++ l.
Proof.
  induction l as [|g l IH]; intros container Hnd; simpl;
    [rewrite app_nil_r; reflexivity|].
  unfold addCardToContainer at 2.
  rewrite bool_decide_eq_false_2.
  - cbn [fst]. rewrite IH; rewrite <- app_assoc; [reflexivity|exact Hnd].
  - rewrite map_app in Hnd. apply NoDup_app in Hnd as (_ & Hdis & _).
    intros Hin. apply (Hdis _ Hin). apply list_elem_of_here.
Qed.

Lemma foldl_card (f : list game → game → list game) (l : list pending) c :
  foldl (λ c p, f c (card p)) c l = foldl f c (map card l).
Proof. revert c. induction l as [|p l IH]; intros c; simpl; auto. Qed.

(** When every batch after the first takes at least 150 ms to load (and
    none reaches the 15 s timer), the card timers run in the order of the
    list: the cards are appended in sorted order, and when the entries
    have distinct [data-appid] keys the container ends up holding exactly
    the list. *)
Theorem cards_in_order_when_batches_take_150ms load visible :
  in_step load →
  Forall plain_key visible →
  map card (fired load visible) = visible
  ∧ (NoDup (map card_key visible) →
     renderGamesWithProgress load visible = visible).
Proof.
  intros Hstep _.
  assert (Hin : in_time load) by (intros j; apply Hstep).
  assert (Hfired : map card (fired load visible) = visible).
  { unfold fired. rewrite sort_by_due_id.
    - rewrite renderLoop_card by exact Hin. apply batches_concat.
    - apply renderLoop_sorted; [exact Hstep|]. apply batches_le_8. }
  split; [exact Hfired|]. intros Hnd.
  unfold renderGamesWithProgress.
  rewrite (foldl_card (λ c g, fst (addCardToContainer c g))), Hfired.
  apply (addCard_fold_keys visible []). exact Hnd.
Qed.

Lemma cards_in_order_when_batches_take_150ms_witness :
  renderGamesWithProgress steady_covers (shelf 20) = shelf 20.
Proof.
  apply (cards_in_order_when_batches_take_150ms steady_covers (shelf 20)).
  - intros k. unfold steady_covers, BATCH_TIMEOUT. lia.
  - apply (bool_decide_unpack _); vm_compute; exact I.
  - apply (bool_decide_unpack _); vm_compute; exact I.
Defined.

Lemma settledAt_S load k :
  settledAt load (S k) = settledAt load k + 200 + clip (load (S k)).
Proof. reflexivity. Qed.

Lemma renderLoop_mem load bs : ∀ k0 j b i g,
  in_time load →
  bs !! j = Some b → b !! i = Some g →
  Pending (settledAt load (k0 + j) + 50 * Z.of_nat i)
          ((k0 + j) * batchSize + i) g
  ∈ renderLoop load bs k0 (startAt load k0).
Proof.
  induction bs as [|b0 bs IH]; intros k0 j b i g Hin Hj Hi; [discriminate|].
  cbn [renderLoop]. apply elem_of_app. destruct j as [|j].
  - left. injection Hj as ->. rewrite Nat.add_0_r.
    destruct (Z.ltb_spec (load k0) BATCH_TIMEOUT) as [_|Hge];
      [|specialize (Hin k0); lia].
    apply (cardTimersFrom_lookup _ _ 0 b i g Hi).
  - right. replace (k0 + S j)%nat with (S k0 + j)%nat by lia.
    apply (IH (S k0) j b i g Hin Hj Hi).
Qed.

Lemma batchAt_lookup {A} (l : list A) k i :
  (i < batchSize)%nat →
  batchAt l k !! i = l !! (k * batchSize + i)%nat.
Proof.
  intros Hi. unfold batchAt, slice.
  destruct (decide (k * batchSize + i < length l)%nat) as [Hlt|Hge].
  - rewrite lookup_take_lt by lia. apply lookup_drop.
  - rewrite (lookup_ge_None_2 l) by lia.
    apply lookup_ge_None_2. rewrite length_take, length_drop. lia.
Qed.

Lemma batches_lookup_Some {A} (l : list A) k :
  (k * batchSize < length l)%nat → batches l !! k = Some (batchAt l k).
Proof.
  intros Hk. unfold batches. rewrite list_lookup_fmap.
  rewrite lookup_seq_lt; [reflexivity|].
  unfold totalBatches, batchSize in *. cbn [Nat.sub].
  pose proof (Nat.div_mod_eq (length l + 7) 8) as Hd.
  pose proof (Nat.mod_upper_bound (length l + 7) 8 ltac:(lia)) as Hm.
  lia.
Qed.

Lemma fired_mem load visible k i g :
  in_time load →
  (i < batchSize)%nat →
  visible !! (k * batchSize + i)%nat = Some g →
  Pending (settledAt load k + 50 * Z.of_nat i) (k * batchSize + i) g
  ∈ fired load visible.
Proof.
  intros Hin Hi Hg. unfold fired. rewrite SweepProps.sort_by_perm.
  apply (renderLoop_mem load (batches visible) 0 k (batchAt visible k) i g Hin).
  - apply batches_lookup_Some. apply lookup_lt_Some in Hg. lia.
  - rewrite batchAt_lookup by exact Hi. exact Hg.
Qed.

(** When a batch has its covers in less than 150 ms (all cached, say),
    its first card is appended before the last card of the batch before
    it: the ninth entry of the sorted list is shown before the eighth. *)
Theorem quick_batch_overtakes_previous_cards load visible k g7 g8 :
  in_time load →
  load (S k) < 150 →
  visible !! (k * 8 + 7)%nat = Some g7 →
  visible !! (k * 8 + 8)%nat = Some g8 →
  before (Pending (settledAt load (S k)) (k * 8 + 8) g8)
         (Pending (settledAt load k + 350) (k * 8 + 7) g7)
         (fired load visible).
Proof.
  intros Hin Hquick H7 H8.
  apply (sorted_before by_due); [apply fired_sorted| | | |].
  - pose proof (fired_mem load visible (S k) 0 g8 Hin) as H.
    unfold batchSize in H. cbn [Z.of_nat] in H.
    replace (S k * 8 + 0)%nat with (k * 8 + 8)%nat in H by lia.
    rewrite Z.mul_0_r, Z.add_0_r in H. apply H; [lia|exact H8].
  - pose proof (fired_mem load visible k 7 g7 Hin) as H.
    unfold batchSize in H. apply H; [lia|exact H7].
  - unfold by_due. cbn [due]. rewrite settledAt_S.
    rewrite (clip_in_time load (S k) Hin). lia.
  - intros E. injection E as _ E _. lia.
Qed.

Lemma quick_batch_overtakes_previous_cards_witness :
  map index (fired cached_covers (shelf 10))
  = [0; 1; 2; 3; 4; 8; 5; 9; 6; 7]%nat.
Proof.
  destruct (quick_batch_overtakes_previous_cards cached_covers (shelf 10) 0
              (Game (JStr "Foo") (JStr "steam") (JNum 8) [])
              (Game (JStr "Foo") (JStr "steam") (JNum 9) []))
    as (l1 & l2 & l3 & H).
  - intros k. unfold cached_covers, BATCH_TIMEOUT. lia.
  - unfold cached_covers. lia.
  - reflexivity.
  - reflexivity.
  - vm_compute. reflexivity.
Defined.

Lemma addCard_fold (l : list game) : ∀ container,
  NoDup (map card_key container) →
  let shown := foldl (λ c g, fst (addCardToContainer c g)) container l in
  NoDup (map card_key shown)
  ∧ shown `sublist_of` container ++ l
  ∧ (∀ g, g ∈ container ++ l → card_key g ∈ map card_key shown).
Proof.
  induction l as [|g l IH]; intros container Hnd; cbv zeta.
  - simpl. rewrite app_nil_r. split; [exact Hnd|]. split; [reflexivity|].
    intros g Hg. apply list_elem_of_fmap_2. exact Hg.
  - cbn [foldl]. unfold addCardToContainer at 2 4 6.
    destruct (bool_decide_reflect (card_key g ∈ map card_key container))
      as [Hin|Hnin]; cbn [fst].
    + destruct (IH container Hnd) as (H1 & H2 & H3). cbv zeta in *.
      split; [exact H1|]. split.
      * etransitivity; [exact H2|].
        apply sublist_app; [reflexivity|]. apply sublist_cons. reflexivity.
      * intros h Hh. apply elem_of_app in Hh as [Hh|Hh].
        -- apply H3. apply elem_of_app. left. exact Hh.
        -- apply elem_of_cons in Hh as [->|Hh].
           ++ apply list_elem_of_fmap in Hin as (c & Hc & Hcin).
              rewrite Hc. apply H3. apply elem_of_app. left. exact Hcin.
           ++ apply H3. apply elem_of_app. right. exact Hh.
    + assert (Hnd' : NoDup (map card_key (container ++ [g]))).
      { rewrite map_app. apply NoDup_app. split; [exact Hnd|]. split.
        - intros x Hx Hx'. apply list_elem_of_singleton in Hx'. subst x.
          exact (Hnin Hx).
        - apply NoDup_singleton. }
      destruct (IH (container ++ [g]) Hnd') as (H1 & H2 & H3).
      cbv zeta in *. rewrite <- app_assoc in H2, H3.
      split; [exact H1|]. split; [exact H2|exact H3].
Qed.

Lemma renderLoop_cards load bs : ∀ k start,
  map card (renderLoop load bs k start) `sublist_of` concat bs.
Proof.
  induction bs as [|b bs IH]; intros k start; [reflexivity|].
  cbn [renderLoop concat]. rewrite map_app. apply sublist_app; [|apply IH].
  destruct (load k <? BATCH_TIMEOUT); [|apply sublist_nil_l].
  unfold cardTimers. rewrite cardTimersFrom_card. reflexivity.
Qed.

(** The progressive renderer shows one card for each [data-appid]:
    whatever the covers take, no two cards of the container have the same
    key, every card is an entry of the list, and every entry whose timer
    ran has a card of its key, its own or the one of an entry that came
    first. Entries that share a key, such as all those without [appid],
    share one card. *)
Theorem progressive_render_one_card_per_appid load visible :
  Forall plain_key visible →
  let shown := renderGamesWithProgress load visible in
  NoDup (map card_key shown)
  ∧ (∀ g, g ∈ shown → g ∈ visible)
  ∧ (∀ p, p ∈ fired load visible → card_key (card p) ∈ map card_key shown).
Proof.
  intros _. cbv zeta. unfold renderGamesWithProgress.
  rewrite (foldl_card (λ c g, fst (addCardToContainer c g))).
  destruct (addCard_fold (map card (fired load visible)) [] (NoDup_nil_2))
    as (H1 & H2 & H3). cbv zeta in *. cbn [app] in *.
  split; [exact H1|]. split.
  - intros g Hg. apply (elem_of_sublist _ _ _ Hg) in H2.
    unfold fired in H2. rewrite SweepProps.sort_by_perm in H2.
    pose proof (renderLoop_cards load (batches visible) 0 0) as Hsub.
    rewrite batches_concat in Hsub.
    exact (elem_of_sublist _ _ _ H2 Hsub).
  - intros p Hp. apply H3. apply list_elem_of_fmap_2. exact Hp.
Qed.

Lemma progressive_render_one_card_per_appid_witness :
  renderGamesWithProgress cached_covers [notepad; paint; foo] = [notepad; foo]
  ∧ NoDup (map card_key
             (renderGamesWithProgress cached_covers [notepad; paint; foo])).
Proof.
  split; [reflexivity|].
  apply (progressive_render_one_card_per_appid cached_covers
           [notepad; paint; foo]).
  apply (bool_decide_unpack _); vm_compute; exact I.
Defined.

End RenderProps.

(** ** RenderScheduler: what the view keeps of the catalog *)

Module SortMore.
Import Sort SortSpec Scenario.

Lemma filterM_filter v l r :
  filterM (isVisible v) l = Ret r → r = List.filter (shown_by v) l.
Proof.
  revert r. induction l as [|g l IH]; intros r H; simpl in H.
  - injection H as <-. reflexivity.
  - unfold mbind, result_bind in H. cbn [List.filter]. unfold shown_by at 1.
    destruct (isVisible v g) as [b|e]; [|discriminate].
    destruct (filterM (isVisible v) l) as [ys|e]; [|discriminate].
    injection H as <-. rewrite (IH ys eq_refl). destruct b; reflexivity.
Qed.

Lemma filterM_throws {A} (f : A → result bool) l :
  (∃ e, filterM f l = Throw e) ↔ ∃ x e, x ∈ l ∧ f x = Throw e.
Proof.
  induction l as [|x l IH]; simpl.
  - split; [intros [e H]; discriminate|intros (x & e & H & _); inversion H].
  - unfold mbind, result_bind. destruct (f x) as [b|e] eqn:Hx.
    + destruct (filterM f l) as [ys|e'].
      * split; [intros [e H]; discriminate|].
        intros (y & e & Hy & Hfy). apply elem_of_cons in Hy as [->|Hy];
          [congruence|].
        assert (∃ e0, @Ret (list A) ys = Throw e0) as [e0 H0]
          by (apply IH; eauto).
        discriminate.
      * split; [|eauto]. intros _.
        destruct IH as [IH _]. destruct IH as (y & e & Hy & Hfy); [eauto|].
        exists y, e. split; [apply list_elem_of_further, Hy|exact Hfy].
    + split; [|eauto]. intros _. exists x, e.
      split; [apply list_elem_of_here|exact Hx].
Qed.

(** Sorting neither adds nor loses an entry: when the pass goes through,
    the array handed to the renderer is a rearrangement of the entries the
    filter kept, each as often as the catalog has it. *)
Theorem sortedView_rearranges_the_filtered v allGames filtered :
  sortedView v allGames = Ret filtered →
  filtered ≡ₚ List.filter (shown_by v) allGames.
Proof.
  unfold sortedView, mbind, result_bind. intros H.
  destruct (filterM (isVisible v) allGames) as [r|e] eqn:Hr; [|discriminate].
  injection H as <-. rewrite SweepProps.sort_by_perm.
  rewrite (filterM_filter v allGames r Hr). reflexivity.
Qed.

Lemma sortedView_rearranges_the_filtered_witness :
  [bar; foo] ≡ₚ List.filter (shown_by default_view) [foo; bar].
Proof.
  apply (sortedView_rearranges_the_filtered default_view [foo; bar]).
  vm_compute. reflexivity.
Defined.

(** One entry whose name is not a string stops the whole pass: with the
    filter on "all", the timer callback throws a [TypeError] (and renders
    nothing) exactly when the catalog holds such an entry. *)
Theorem unnamed_entry_stops_the_render v allGames :
  activeFilter v = "all" →
  (∃ e, sortedView v allGames = Throw e)
  ↔ ∃ g, g ∈ allGames ∧ named g = false.
Proof.
  intros Hall. unfold sortedView, mbind, result_bind.
  assert (Hthrow : ∀ g, (∃ e, isVisible v g = Throw e) ↔ named g = false).
  { intros g. unfold isVisible, named. rewrite Hall. cbn [String.eqb].
    change (String.eqb "all" "all") with true. cbv iota.
    destruct (name g); split; try (intros [e H]; discriminate);
      try discriminate; eauto. }
  split.
  - intros [e H].
    destruct (filterM (isVisible v) allGames) as [r|e'] eqn:Hr; [discriminate|].
    assert (∃ x e0, x ∈ allGames ∧ isVisible v x = Throw e0)
      as (g & e0 & Hg & Hv) by (apply filterM_throws; eauto).
    exists g. split; [exact Hg|]. apply Hthrow. eauto.
  - intros (g & Hg & Hn). apply Hthrow in Hn as [e0 Hv].
    assert (∃ e, filterM (isVisible v) allGames = Throw e) as [e He]
      by (apply filterM_throws; eauto).
    rewrite He. eauto.
Qed.

Lemma unnamed_entry_stops_the_render_witness :
  ∃ e, sortedView default_view
         [foo; Game JUndefined (JStr "steam") (JNum 5) []; bar] = Throw e.
Proof.
  apply (unnamed_entry_stops_the_render default_view); [reflexivity|].
  exists (Game JUndefined (JStr "steam") (JNum 5) []).
  split; [|reflexivity]. apply list_elem_of_further, list_elem_of_here.
Defined.

End SortMore.

(** ** Favourites *)

Module FavoritesProps.
Import Favorites.

Lemma json_roundtrip_parsed l : parsed l → map json_roundtrip l = l.
Proof.
  unfold parsed. induction l as [|x l IH]; intros H; [reflexivity|].
  cbn [map]. rewrite IH by (intros Hin; apply H, list_elem_of_further, Hin).
  destruct x; try reflexivity. exfalso. apply H, list_elem_of_here.
Qed.

Lemma json_roundtrip_never_undefined l : parsed (map json_roundtrip l).
Proof.
  unfold parsed. intros H. apply list_elem_of_fmap in H as (x & Hx & _).
  destruct x; discriminate.
Qed.

(** A click on the star flips the favourite state of that appid and of
    no other: the appid is in the stored array afterwards exactly when it
    was not before, every other id is in it exactly when it was, and the
    toast says which of the two happened. *)
Theorem toggleFavorite_flips_one_id stored appid other :
  parsed stored →
  appid ≠ JUndefined →
  other ≠ appid →
  let '(stored', toast) := toggleFavorite stored appid in
  (isFav stored' appid = negb (isFav stored appid))
  ∧ (isFav stored' other = isFav stored other)
  ∧ (toast = if isFav stored' appid then "Ajouté aux favoris"
             else "Retiré des favoris")
  ∧ parsed stored'.
Proof.
  intros Hp Ha Ho. unfold toggleFavorite, isFav.
  assert (Hfp : parsed (filter (λ id, id ≠ appid) stored)).
  { unfold parsed. intros H. apply list_elem_of_filter in H as [_ H].
    exact (Hp H). }
  assert (Hap : parsed (stored ++ [appid])).
  { unfold parsed. intros H. apply elem_of_app in H as [H|H]; [exact (Hp H)|].
    apply list_elem_of_singleton in H. congruence. }
  destruct (bool_decide_reflect (appid ∈ stored)) as [Hin|Hnin].
  - rewrite (json_roundtrip_parsed _ Hfp).
    assert (Hgone : appid ∉ filter (λ id, id ≠ appid) stored).
    { intros H. apply list_elem_of_filter in H as [H _]. congruence. }
    rewrite !(bool_decide_eq_false_2 _ Hgone). cbn [negb].
    split; [reflexivity|]. split; [|split; [reflexivity|exact Hfp]].
    apply bool_decide_ext. rewrite list_elem_of_filter. tauto.
  - rewrite (json_roundtrip_parsed _ Hap).
    assert (Hnow : appid ∈ stored ++ [appid]).
    { apply elem_of_app. right. apply list_elem_of_here. }
    rewrite !(bool_decide_eq_true_2 _ Hnow). cbn [negb].
    split; [reflexivity|]. split; [|split; [reflexivity|exact Hap]].
    apply bool_decide_ext. rewrite elem_of_app, list_elem_of_singleton.
    split; [intros [H|H]; [exact H|congruence]|auto].
Qed.

Lemma toggleFavorite_flips_one_id_witness :
  toggleFavorite [JNum 1; JStr "x"] (JNum 1) = ([JStr "x"], "Retiré des favoris")
  ∧ isFav (fst (toggleFavorite [JNum 1; JStr "x"] (JNum 1))) (JStr "x") = true.
Proof.
  split; [reflexivity|].
  pose proof (toggleFavorite_flips_one_id [JNum 1; JStr "x"] (JNum 1) (JStr "x"))
    as H.
  destruct (toggleFavorite [JNum 1; JStr "x"] (JNum 1)) as [stored' toast].
  destruct H as (_ & H & _).
  - unfold parsed. intros Hin.
    repeat (apply elem_of_cons in Hin as [Hin|Hin]; [discriminate|]).
    inversion Hin.
  - discriminate.
  - discriminate.
  - exact H.
Defined.

(** An entry without [appid] cannot be made a favourite: each click on
    its star stores one more [null], the toast says "Ajouté aux favoris",
    and the star test for the entry stays false. *)
Theorem entry_without_appid_is_never_favourite stored :
  parsed stored →
  toggleFavorite stored JUndefined
  = (stored ++ [JNull], "Ajouté aux favoris")
  ∧ isFav (fst (toggleFavorite stored JUndefined)) JUndefined = false.
Proof.
  intros Hp. unfold toggleFavorite, isFav.
  rewrite (bool_decide_eq_false_2 _ Hp).
  assert (Hnow : JUndefined ∈ stored ++ [JUndefined]).
  { apply elem_of_app. right. apply list_elem_of_here. }
  rewrite (bool_decide_eq_true_2 _ Hnow).
  rewrite map_app, (json_roundtrip_parsed _ Hp). cbn [map json_roundtrip fst].
  split; [reflexivity|]. apply bool_decide_eq_false_2.
  intros H. apply elem_of_app in H as [H|H]; [exact (Hp H)|].
  apply list_elem_of_singleton in H. discriminate.
Qed.

Lemma entry_without_appid_is_never_favourite_witness :
  fst (toggleFavorite (fst (toggleFavorite [] JUndefined)) JUndefined)
  = [JNull; JNull].
Proof.
  destruct (entry_without_appid_is_never_favourite []) as [H _].
  - unfold parsed. apply not_elem_of_nil.
  - rewrite H. cbn [fst app].
    destruct (entry_without_appid_is_never_favourite [JNull]) as [H' _].
    + unfold parsed. intros Hin. apply list_elem_of_singleton in Hin.
      discriminate.
    + rewrite H'. reflexivity.
Defined.

End FavoritesProps.

(** ** MergeEngine and ImageCache: a malformed batch, a second call *)

Module EdgeProps.
Import Merge Cache SortSpec Scenario.

Lemma nameKey_unnamed g : named g = false → ∃ e, nameKey g = Throw e.
Proof. unfold named, nameKey. destruct (name g); try discriminate; eauto. Qed.

(** One entry without a string name loses the whole batch: the filter
    throws a [TypeError] at that entry (or the name set of the catalog has
    thrown before), the promise is rejected and nothing of the batch is
    appended, the well-formed entries included. *)
Theorem unnamed_entry_rejects_whole_batch container allGames batch g :
  g ∈ batch →
  named g = false →
  fst (appendNewGames container allGames batch) = allGames
  ∧ accepted (snd (appendNewGames container allGames batch)) = [].
Proof.
  intros Hg Hn. unfold appendNewGames.
  destruct (is_empty batch); [split; reflexivity|].
  destruct (negb container); [split; reflexivity|].
  assert (Hthrow : ∃ e, uniqueGamesOf allGames batch = Throw e).
  { unfold uniqueGamesOf, mbind, result_bind.
    destruct (existingNames allGames) as [names|e]; [|eauto].
    apply SortMore.filterM_throws.
    destruct (nameKey_unnamed (normalizeGame g) Hn) as [e He].
    exists (normalizeGame g), e. split.
    - apply list_elem_of_fmap_2. exact Hg.
    - unfold isUnique, mbind, result_bind. rewrite He. reflexivity. }
  destruct Hthrow as [e He]. rewrite He. split; reflexivity.
Qed.

Lemma unnamed_entry_rejects_whole_batch_witness :
  fst (appendNewGames true [foo]
         [bar; Game JUndefined (JStr "steam") (JNum 5) []])
  = [foo].
Proof.
  apply (unnamed_entry_rejects_whole_batch true [foo]
           [bar; Game JUndefined (JStr "steam") (JNum 5) []]
           (Game JUndefined (JStr "steam") (JNum 5) [])).
  - apply list_elem_of_further, list_elem_of_here.
  - reflexivity.
Defined.



End EdgeProps.
